(** * jsLPSolver: the external lp_solve hand-off and the typed entry points

    A shallow embedding of the two source files of the repository:

    - the external-solver shell ([clean_data] and [solve]), which turns the
      standard output of an [lp_solve] binary into an object and stages a
      model for such a binary behind a [Promise];
    - the TypeScript declarations of the library ([IModel], [Solution],
      [ReformatLP], [Solve], [lastSolvedModel]).

    JavaScript values, property reads, truthiness, exceptions, the [Promise]
    constructor, [RegExp] matching and [String.prototype.split] are modelled
    to the extent the two files use them. *)

From stdpp Require Import base option list gmap strings.
From Stdlib Require Import Ascii String ZArith QArith Qabs Qround Lia.

Set Warnings "-register-all".
Close Scope Q_scope.
Close Scope Z_scope.
Local Open Scope string_scope.

(** ** JavaScript values *)

Module JS.

(** The values that can flow through [solve]: the model handed in by the
    caller and the reasons handed to the reject callback.  Numbers are
    restricted to the integers and [NaN], which is all truthiness needs
    ([-0] is identified with [0]).  [JError name about] stands for an
    instance of the built-in error class [name]; [about] keeps the property
    whose read failed instead of the engine-specific message text. *)
Inductive value : Type :=
| JUndefined
| JNull
| JBool (b : bool)
| JNum (z : Z)
| JNaN
| JStr (s : string)
| JObj (fields : gmap string value)
| JArr (items : list value)
| JError (name about : string).

(** [ToBoolean]: what [if (!v)] tests. *)
Definition truthy (v : value) : bool :=
  match v with
  | JUndefined | JNull | JNaN => false
  | JBool b => b
  | JNum z => negb (z =? 0)%Z
  | JStr s => negb (String.eqb s "")
  | JObj _ | JArr _ | JError _ _ => true
  end.

(** [undefined] and [null] are the two values without properties. *)
Definition nullish (v : value) : bool :=
  match v with
  | JUndefined | JNull => true
  | _ => false
  end.

(** The result of evaluating an expression: a value, or an exception. *)
Inductive completion (A : Type) : Type :=
| Normal (a : A)
| Throw (e : value).
Arguments Normal {A} a.
Arguments Throw {A} e.

(** The property read [base.prop] for the own data properties of plain
    objects.  Reading from [undefined] or [null] throws a [TypeError];
    reading a name a value does not have gives [undefined].  (None of the
    names [solve] reads exists on a built-in prototype.) *)
Definition get (base : value) (prop : string) : completion value :=
  match base with
  | JUndefined | JNull => Throw (JError "TypeError" prop)
  | JObj fields => Normal (default JUndefined (fields !! prop))
  | _ => Normal JUndefined
  end.

(** *** The executor of a [Promise]

    The function handed to [new Promise] receives the two resolving
    functions.  Running it yields the calls it made to them, in order, and
    its completion. *)
Inductive call : Type :=
| CallRes (v : value)
| CallRej (reason : value).

Definition Exec (A : Type) : Type := (list call * completion A)%type.

Definition calls {A} (e : Exec A) : list call := e.1.
Definition completion_of {A} (e : Exec A) : completion A := e.2.

#[export] Instance Exec_ret : MRet Exec := λ A a, ([], Normal a).
#[export] Instance Exec_bind : MBind Exec := λ A B k m,
  match m.2 with
  | Normal a => ((m.1 ++ (k a).1)%list, (k a).2)
  | Throw e => (m.1, Throw e)
  end.

(** An expression evaluated inside the executor. *)
Definition eval {A} (c : completion A) : Exec A := ([], c).
(** [rej(reason)]. *)
Definition rej (reason : value) : Exec unit := ([CallRej reason], Normal ()).
(** [res(v)]. *)
Definition res (v : value) : Exec unit := ([CallRes v], Normal ()).
(** [if (b) { body }]. *)
Definition when (b : bool) (body : Exec unit) : Exec unit :=
  if b then body else mret ().

(** *** Promise states *)
Inductive promise : Type :=
| Pending
| Fulfilled (v : value)
| Rejected (reason : value).

(** Only the first call of a resolving function settles the promise. *)
Definition settle (p : promise) (c : call) : promise :=
  match p with
  | Pending =>
      match c with
      | CallRes v => Fulfilled v
      | CallRej r => Rejected r
      end
  | _ => p
  end.

(** [new Promise(executor)]: the executor runs at once; an exception that
    escapes it rejects the promise unless it is settled already. *)
Definition new_Promise (body : Exec unit) : promise :=
  let p := foldl settle Pending (calls body) in
  match completion_of body with
  | Normal _ => p
  | Throw e => settle p (CallRej e)
  end.

(** The executor ran to the end of its body. *)
Definition ran_to_end (body : Exec unit) : Prop :=
  completion_of body = Normal ().

End JS.
Import JS.

(** ** The external solver shell *)

Module External.

Definition msg_browser : string := "Function Not Available in Browser".
Definition msg_external : string :=
  "Data for this function must be contained in the 'external' attribute. Not seeing anything there.".
Definition msg_binPath : string :=
  "No Executable | Binary path provided in arguments as 'binPath'".
Definition msg_args : string :=
  "No arguments array for cli | bash provided on 'args' attribute".
Definition msg_tempName : string :=
  "No 'tempName' given. This is necessary to produce a staging file for the solver to operate on".

Section solve.
(** [require("./Reformat.js")]: the emitter of the repository, which is
    not part of the two files.  It is taken to end, with the LP text or
    with an exception, and to leave the model as it is. *)
Variable Reformat : value → completion value.
(** [typeof window !== "undefined"]. *)
Variable window_defined : bool.

(** The body of the function handed to [new Promise] in [exports.solve]. *)
Definition solve_executor (model : value) : Exec unit :=
  when window_defined (rej (JStr msg_browser));;
  data ← eval (Reformat model);
  external ← eval (get model "external");
  when (negb (truthy external)) (rej (JStr msg_external));;
  external ← eval (get model "external");
  binPath ← eval (get external "binPath");
  when (negb (truthy binPath)) (rej (JStr msg_binPath));;
  external ← eval (get model "external");
  args ← eval (get external "args");
  when (negb (truthy args)) (rej (JStr msg_args));;
  external ← eval (get model "external");
  tempName ← eval (get external "tempName");
  when (negb (truthy tempName)) (rej (JStr msg_tempName)).

(** [exports.solve]. *)
Definition solve (model : value) : promise :=
  new_Promise (solve_executor model).
End solve.

(** The calls made by the statement [if (!v) { rej(msg) }]. *)
Definition check (v : value) (msg : string) : list call :=
  calls (when (negb (truthy v)) (rej (JStr msg))).

(** The calls made by the test for a browser. *)
Definition browser_check (window_defined : bool) : list call :=
  calls (when window_defined (rej (JStr msg_browser))).

(** A model for the external solver, as in the comment that closes the
    source file, and an emitter that returns some LP text. *)
Definition sample_external : value :=
  JObj (<["binPath" := JStr "C:/lpsolve/lp_solve.exe"]>
       (<["tempName" := JStr "C:/temp/out.txt"]>
       (<["args" := JArr [JStr "-S2"]]> ∅))).
Definition sample_model : value := JObj (<["external" := sample_external]> ∅).
Definition sample_Reformat (model : value) : completion value :=
  Normal (JStr "max: 1 x;").

(** The five messages of [solve]. *)
Definition messages : list string :=
  [msg_browser; msg_external; msg_binPath; msg_args; msg_tempName].

(** What [solve] may hand to the reject callback. *)
Definition is_message (c : call) : Prop :=
  ∃ msg, c = CallRej (JStr msg) ∧ msg ∈ messages.

(** An emitter that refuses every model. *)
Definition failing_Reformat (model : value) : completion value :=
  Throw (JStr "Solver requires a model to operate on").

(** A model whose [external] gives the binary only. *)
Definition partial_model : value :=
  JObj (<["external" :=
            JObj (<["binPath" := JStr "C:/lpsolve/lp_solve.exe"]> ∅)]> ∅).

End External.

(** ** Regular expressions and string splitting *)

Module RegExp.

(** The fragment of the pattern language that [clean_data] uses.  The
    patterns contain no letters, so the [i] flag changes nothing, and every
    [RegExp] object is used once from [lastIndex = 0], so neither does the
    [g] flag. *)
Inductive regex : Type :=
| Chr (c : ascii)          (* a literal character *)
| Digit                    (* \d *)
| Cat (r1 r2 : regex)      (* r1 followed by r2 *)
| Opt (r : regex)          (* r{0,1}, greedy *)
| Plus (r : regex)         (* r+, greedy *)
| Ahead (r : regex)        (* (?=r) *)
| Eos.                     (* $ without the m flag: the end of the input *)

Definition is_digit (c : ascii) : bool :=
  ((48 <=? nat_of_ascii c) && (nat_of_ascii c <=? 57))%nat.

(** The first alternative that succeeds. *)
Definition orelse {A} (x y : option A) : option A :=
  match x with
  | Some a => Some a
  | None => y
  end.

(** The iterations of [r+] after the first, where [step] matches [r] once:
    one more iteration if it consumes input, and the continuation when
    that fails.  The length of the input bounds the number of
    iterations. *)
Fixpoint iterate {A} (step : string → (string → option A) → option A)
    (k : string → option A) (fuel : nat) (s : string) : option A :=
  match fuel with
  | 0 => k s
  | S fuel' =>
      orelse
        (step s (λ s',
           if (String.length s' <? String.length s)%nat
           then iterate step k fuel' s'
           else None))
        (k s)
  end.

(** A backtracking matcher in continuation-passing style: [run r s k]
    matches [r] at the start of [s] and hands what is left of [s] to [k];
    when [k] fails the next way of matching [r] is tried. *)
Fixpoint run {A} (r : regex) (s : string) (k : string → option A) : option A :=
  match r with
  | Chr c =>
      match s with
      | String x s' => if Ascii.eqb x c then k s' else None
      | EmptyString => None
      end
  | Digit =>
      match s with
      | String x s' => if is_digit x then k s' else None
      | EmptyString => None
      end
  | Cat r1 r2 => run r1 s (λ s', run r2 s' k)
  | Opt r1 => orelse (run r1 s k) (k s)
  | Plus r1 => run r1 s (λ s', iterate (run r1) k (String.length s') s')
  | Ahead r1 =>
      match run r1 s (λ _, Some ()) with
      | Some _ => k s
      | None => None
      end
  | Eos =>
      match s with
      | EmptyString => k s
      | String _ _ => None
      end
  end.

(** A match of [r] at the very start of [s]: the number of characters it
    consumes. *)
Definition match_len (r : regex) (s : string) : option nat :=
  match run r s Some with
  | Some rest => Some (String.length s - String.length rest)%nat
  | None => None
  end.

(** [r.test(s)] for a fresh [r]: is there a match starting anywhere in [s],
    the end of [s] included. *)
Fixpoint test (r : regex) (s : string) : bool :=
  match run r s Some with
  | Some _ => true
  | None =>
      match s with
      | EmptyString => false
      | String _ s' => test r s'
      end
  end.

(** Put [c] in front of the first piece. *)
Definition cons_head (c : ascii) (pieces : list string) : list string :=
  match pieces with
  | [] => [String c ""]
  | p :: ps => String c p :: ps
  end.

(** [String.prototype.split] for a separator given by [sep], which tells
    how many characters a separator starting at the head of its argument
    takes.  The scan goes left to right; [skip] counts the characters of the
    current separator still to be dropped and [fresh] tells that no
    character has been put in the current piece yet.  An empty separator
    match at the start of a piece is ignored; elsewhere it ends the piece. *)
Fixpoint split_from (sep : string → option nat) (skip : nat) (fresh : bool)
    (s : string) : list string :=
  match s with
  | EmptyString => [""]
  | String c s' =>
      match skip with
      | S n => split_from sep n true s'
      | 0 =>
          match sep s with
          | Some (S n) => "" :: split_from sep n true s'
          | Some 0 =>
              if fresh then cons_head c (split_from sep 0 false s')
              else "" :: cons_head c (split_from sep 0 false s')
          | None => cons_head c (split_from sep 0 false s')
          end
      end
  end.

Definition split_with (sep : string → option nat) (s : string) : list string :=
  match s with
  | EmptyString =>
      match sep "" with
      | Some _ => []
      | None => [""]
      end
  | String _ _ => split_from sep 0 true s
  end.

(** [s.split(r)] for a regular expression without capture groups. *)
Definition split_regex (r : regex) (s : string) : list string :=
  split_with (match_len r) s.

(** [s.split(sep)] for a string separator that is not empty. *)
Definition literal (sep s : string) : option nat :=
  if String.prefix sep s then Some (String.length sep) else None.

Definition split_string (sep s : string) : list string :=
  split_with (literal sep) s.

(** The text of [s] after its first [n] characters. *)
Fixpoint string_drop (n : nat) (s : string) : string :=
  match n, s with
  | S n', String _ s' => string_drop n' s'
  | _, _ => s
  end.

(** [s.replace(pat, rep)] for a string pattern and a replacement without
    [$]: only the first occurrence is replaced. *)
Fixpoint replace_first (pat rep s : string) : string :=
  if String.prefix pat s then rep ++ string_drop (String.length pat) s
  else
    match s with
    | EmptyString => ""
    | String c s' => String c (replace_first pat rep s')
    end.

End RegExp.
Import RegExp.

(** ** [clean_data]: the report of [lp_solve] as an object *)

Module CleanData.

Definition CR : ascii := ascii_of_nat 13.
Definition LF : ascii := ascii_of_nat 10.
Definition CRLF : string := String CR (String LF "").
(** The four characters backslash, r, backslash, n. *)
Definition escaped_CRLF : string := "\r\n".

(** [new RegExp(" 0$","gi")]. *)
Definition rx_zero : regex := Cat (Chr " ") (Cat (Chr "0") Eos).
(** [new RegExp("\\d$","gi")]. *)
Definition rx_digit : regex := Cat Digit Eos.
(** [/\:{0,1} +(?=\d)/]. *)
Definition rx_sep : regex :=
  Cat (Opt (Chr ":")) (Cat (Plus (Chr " ")) (Ahead Digit)).

(** The callback of [filter]. *)
Definition keep (x : string) : bool :=
  if test rx_zero x then false
  else if negb (test rx_digit x) then false
  else true.

(** [k[i]] for an array of strings. *)
Definition item (k : list string) (i : nat) : value :=
  match k !! i with
  | Some s => JStr s
  | None => JUndefined
  end.

(** The property key a value is converted to. *)
Definition property_key (v : value) : string :=
  match v with
  | JStr s => s
  | _ => "undefined"
  end.

(** [o[key] = v] on an object created by [{}].  The name [__proto__] is an
    accessor inherited from [Object.prototype]: assigning to it never
    creates a property (and a string or [undefined] is ignored by it). *)
Definition set_property (o : gmap string value) (key : string) (v : value)
    : gmap string value :=
  if String.eqb key "__proto__" then o else <[key := v]> o.

(** The lines [clean_data] works on. *)
Definition lines_of (data : string) : list string :=
  split_string CRLF (replace_first escaped_CRLF CRLF data).

(** The callback of [map]. *)
Definition fields (x : string) : list string := split_regex rx_sep x.

(** The callback of [reduce]. *)
Definition store (o : gmap string value) (k : list string) : gmap string value :=
  set_property o (property_key (item k 0)) (item k 1).

Definition clean_data (data : string) : gmap string value :=
  foldl store ∅ (map fields (List.filter keep (lines_of data))).

(** *** What the three callbacks compute, said without the patterns *)

Fixpoint spaces (n : nat) : string :=
  match n with
  | 0 => ""
  | S n' => String " " (spaces n')
  end.

Definition ends_with (suffix line : string) : Prop :=
  ∃ before, line = before ++ suffix.

Definition ends_with_digit (line : string) : Prop :=
  ∃ before d, line = before ++ String d "" ∧ is_digit d = true.

(** The lines the filter removes. *)
Definition dropped (line : string) : Prop :=
  ends_with " 0" line ∨ ¬ ends_with_digit line.

Definition starts_with_digit (s : string) : bool :=
  match s with
  | String c _ => is_digit c
  | EmptyString => false
  end.

(** A separator: one or more spaces, with or without a colon before. *)
Inductive separator : string → Prop :=
| separator_spaces (n : nat) : separator (spaces (S n))
| separator_colon (n : nat) : separator (String ":" (spaces (S n))).

(** [s] begins with a separator, and [rest], which begins with a digit,
    follows it. *)
Definition separator_at (s rest : string) : Prop :=
  ∃ sep, separator sep ∧ s = sep ++ rest ∧ starts_with_digit rest = true.

(** No separator begins inside [key] when [s] follows it. *)
Definition no_separator_in (key s : string) : Prop :=
  ∀ p q rest, key = p ++ q → q ≠ "" → ¬ separator_at (q ++ s) rest.

(** The pieces of a line: the text between one separator and the next. *)
Inductive Fields : string → list string → Prop :=
| Fields_last (line : string) :
    (∀ p q rest, line = p ++ q → ¬ separator_at q rest) →
    Fields line [line]
| Fields_next (key s rest : string) (more : list string) :
    no_separator_in key s →
    separator_at s rest →
    Fields rest more →
    Fields (key ++ s) (key :: more).

(** The separator pattern read off by hand: the spaces, the digit that
    must follow them, and the optional colon. *)
Fixpoint skip_spaces (s : string) : string :=
  match s with
  | String c s' => if Ascii.eqb c " " then skip_spaces s' else s
  | EmptyString => s
  end.

Fixpoint count_spaces (s : string) : nat :=
  match s with
  | String c s' => if Ascii.eqb c " " then S (count_spaces s') else 0
  | EmptyString => 0
  end.

Definition ahead_digit (s : string) : option string :=
  if starts_with_digit s then Some s else None.

Definition spaces_digit (s : string) : option string :=
  match s with
  | String c s' =>
      if Ascii.eqb c " " then ahead_digit (skip_spaces s') else None
  | EmptyString => None
  end.

Definition colon_spaces_digit (s : string) : option string :=
  match s with
  | String c s' => if Ascii.eqb c ":" then spaces_digit s' else None
  | EmptyString => None
  end.

(** [sep] occurs nowhere in [s]. *)
Definition free_of (sep s : string) : Prop := ∀ p q, s ≠ p ++ sep ++ q.

(** No occurrence of [pat] in [s] begins before the end of [p]. *)
Definition first_occurrence (pat p s : string) : Prop :=
  ∀ a b, s = a ++ pat ++ b → (String.length p ≤ String.length a)%nat.

(** A report as [lp_solve -S4] prints it, with CR LF line ends. *)
Definition sample_report : string :=
  String.concat CRLF
    [ "";
      "Value of objective function: 8";
      "";
      "Actual values of the variables:";
      "x                               6";
      "y                               2";
      "w                               0";
      "";
      "Actual values of the constraints:";
      "R1                             10";
      "R2                             16 4";
      "" ].

(** One step of the chain [filter], [map], [reduce]. *)
Definition step (o : gmap string value) (line : string) : gmap string value :=
  if keep line then store o (fields line) else o.

(** A line that stores something under [key]. *)
Definition writes (line key : string) : Prop :=
  keep line = true ∧ key ≠ "__proto__" ∧ ∃ more, fields line = key :: more.

(** Does [sep] occur somewhere in [s]? *)
Fixpoint contains (sep s : string) : bool :=
  String.prefix sep s
  || match s with
     | String _ s' => contains sep s'
     | EmptyString => false
     end.

(** A report with LF line ends. *)
Definition unix_report : string :=
  String.concat (String LF "")
    [ "";
      "Value of objective function: 8";
      "";
      "Actual values of the variables:";
      "x                               6";
      "y                               2";
      "" ].

(** [text] is [data] with its first escaped pair, if it has one, made a
    real CR LF. *)
Definition first_pair_made_real (data text : string) : Prop :=
  (free_of escaped_CRLF data ∧ text = data) ∨
  (∃ p q, data = p ++ escaped_CRLF ++ q
          ∧ first_occurrence escaped_CRLF p data
          ∧ text = p ++ CRLF ++ q).

(** [ls] are the pieces of [text] between its CR LF pairs. *)
Definition pieces_between_CRLF (text : string) (ls : list string) : Prop :=
  ls ≠ [] ∧ Forall (free_of CRLF) ls ∧ String.concat CRLF ls = text.

End CleanData.
Import CleanData.

(** ** The declared signatures *)

Module Declarations.

(** The types that occur in the two signatures of [ReformatLP];
    [TModel] is [IModel<string, string, string>]. *)
Inductive ts_type : Type :=
| TString
| TArray (elem : ts_type)
| TModel.

Fixpoint ts_eqb (a b : ts_type) : bool :=
  match a, b with
  | TString, TString => true
  | TArray a', TArray b' => ts_eqb a' b'
  | TModel, TModel => true
  | _, _ => false
  end.

Record signature : Type := { parameter : ts_type; returns : ts_type }.

(** [export function ReformatLP(model: string[]): IModel<string, string, string>;]
    [export function ReformatLP(model: IModel<string, string, string>): string;] *)
Definition ReformatLP : list signature :=
  [ {| parameter := TArray TString; returns := TModel |};
    {| parameter := TModel; returns := TString |} ].

(** The type of a call: that of the first overload, in the order of
    declaration, whose parameter takes the argument. *)
Fixpoint return_type (overloads : list signature) (argument : ts_type)
    : option ts_type :=
  match overloads with
  | [] => None
  | o :: rest =>
      if ts_eqb (parameter o) argument then Some (returns o)
      else return_type rest argument
  end.

End Declarations.

(** ** The model and the solution *)

Module Solver.

(** The interfaces of [main.d.ts].  A [number] is taken as a rational: the
    properties below compare and add numbers and do not depend on
    rounding. *)

Record IModelVariableConstraint : Type :=
  { min : option Q; max : option Q; equal : option Q }.

Record IModelOptions : Type :=
  { tolerance : option Q;
    timeout : option Q;
    useMIRCuts : option bool;
    exitOnCycles : option bool }.

Inductive OpType : Type := OpMax | OpMin.

(** A flag of [ints], [binaries] and [unrestricted] is [boolean | 0 | 1];
    it is kept as the boolean it converts to. *)
Record IModel : Type :=
  { optimize : string;
    opType : OpType;
    constraints : gmap string IModelVariableConstraint;
    variables : gmap string (gmap string Q);
    ints : option (gmap string bool);
    binaries : option (gmap string bool);
    unrestricted : option (gmap string bool);
    options : option IModelOptions }.

Record ISolutionStatus : Type :=
  { feasible : bool;
    result : Q;
    bounded : option bool;
    isIntegral : option bool }.

(** [ISolutionStatus & { [variable in TSolutionVar]?: number }]: the status
    and the entries of the variables, kept apart. *)
Record Solution : Type :=
  { status : ISolutionStatus;
    entries : gmap string Q }.

(** [export const lastSolvedModel]: the state of the module. *)
Record solver_state : Type := { lastSolvedModel : IModel }.

(** Modelled from the spec: the kinds of error [Solve] and the parser raise
    (sections 4.1, 6 and 7); their definitions are not in the two files. *)
Inductive ValidationKind : Type :=
| MissingObjective
| UnknownVariable
| ConflictingDomain
| MalformedConstraint.

(** Modelled from the spec: the errors raised to the caller (section 7):
    [ParseError{line, col, expected}] and [ValidationError] with its kind. *)
Inductive error : Type :=
| ParseError (line col : nat) (expected : string)
| ValidationError (kind : ValidationKind).

(** Modelled from the spec: a call of [Solve] returns a solution or raises
    an error (section 7). *)
Inductive answer : Type :=
| Returned (s : Solution)
| Raised (e : error).

(** Modelled from the spec: the options of the engine, section 3:
    [{tolerance?, timeout?, exitOnCycles? (default true)}].  The body of
    [Solve] is not in the two files. *)
Record EngineOptions : Type :=
  { eng_tolerance : option Q;
    eng_timeout : option Q;
    eng_exitOnCycles : bool }.

(** Modelled from the spec: the engine options of a model; [useMIRCuts] is
    accepted and not passed on (sections 1 and 9). *)
Definition engine_options (o : option IModelOptions) : EngineOptions :=
  match o with
  | Some o =>
      {| eng_tolerance := tolerance o;
         eng_timeout := timeout o;
         eng_exitOnCycles := default true (exitOnCycles o) |}
  | None =>
      {| eng_tolerance := None; eng_timeout := None; eng_exitOnCycles := true |}
  end.

(** Modelled from the spec: the objective, the constraints and the variable
    domains of a model, which the preprocessor of section 4.2 reads. *)
Definition problem_of (m : IModel) : IModel :=
  {| optimize := optimize m;
     opType := opType m;
     constraints := constraints m;
     variables := variables m;
     ints := ints m;
     binaries := binaries m;
     unrestricted := unrestricted m;
     options := None |}.

(** Modelled from the spec: what the simplex engine and the branch-and-bound
    driver of sections 4.3 and 4.4 hand to the assembler: a verdict, the
    value of every internal variable, and the objective as minimised. *)
Inductive Verdict : Type :=
| Optimal
| Unbounded
| Infeasible
| CycleDetected
| TimedOut.

(** Modelled from the spec: the result of the engine (sections 4.3, 4.4). *)
Record EngineResult : Type :=
  { verdict : Verdict;
    x_std : string → Q;
    z : Q }.

(** Modelled from the spec: the value of a declared solution variable, the
    sum of [coeff * x_std[internal]] (section 4.5). *)
Definition assembled_value (x : string → Q) (coeffs : gmap string Q) : Q :=
  map_fold (λ name coeff acc, acc + coeff * x name)%Q 0%Q coeffs.

(** Modelled from the spec: "magnitude [> precision]" (section 4.5). *)
Definition exceeds (precision v : Q) : bool :=
  negb (Qle_bool (Qabs v) precision).

(** Modelled from the spec: the entries that are put out: those beyond the
    precision, and with [full] the zero-valued ones too (sections 4.5, 6). *)
Definition included (precision : Q) (full : bool) (v : Q) : bool :=
  full || exceeds precision v.

(** Modelled from the spec: the integer variables of a model, those flagged
    in [ints] or [binaries] (section 4.2). *)
Definition is_flagged (flags : option (gmap string bool)) (name : string) : bool :=
  match flags with
  | Some f => default false (f !! name)
  | None => false
  end.

(** Modelled from the spec: the names flagged as integer or binary; a model
    with none is not a MILP (section 4.5). *)
Definition integer_names (m : IModel) : list string :=
  List.filter (λ name, is_flagged (ints m) name || is_flagged (binaries m) name)
    (elements (dom (default ∅ (ints m)) ∪ dom (default ∅ (binaries m)))).

(** Modelled from the spec: "within [precision] of an integer"
    (section 4.5). *)
Definition near_integer (precision v : Q) : bool :=
  let nearest := inject_Z (Qfloor (v + (1 # 2))) in
  Qle_bool (Qabs (v - nearest)) precision.

(** Modelled from the spec: the solution assembler of section 4.5 with the
    [full] flag of section 6. *)
Definition assemble (m : IModel) (precision : Q) (full : bool)
    (r : EngineResult) : Solution :=
  {| status :=
       {| feasible := match verdict r with Infeasible => false | _ => true end;
          result := match opType m with OpMax => (- z r)%Q | OpMin => z r end;
          bounded := Some (match verdict r with Unbounded => false | _ => true end);
          isIntegral :=
            match integer_names m with
            | [] => None
            | names =>
                Some (forallb (λ name, near_integer precision (x_std r name)) names)
            end |};
     entries :=
       filter (λ kv, included precision full kv.2 = true)
         (assembled_value (x_std r) <$> variables m) |}.

(** Modelled from the spec: [precision] defaults to [1e-9] (section 6). *)
Definition default_precision : Q := 1 # 1000000000.

Section Solve.
(** The numerical engine and the structural validations are outside the
    two files and are left open. *)
Variable engine : IModel → EngineOptions → Q → EngineResult.
Variable validations : IModel → option ValidationKind.

(** Modelled from the spec: [Solve(model, precision?, full?, validate?)]
    of section 6: [validate] runs the structural validations first and a
    failure is raised; the solution is assembled from what the engine
    finds; [lastSolvedModel] is set on a successful return only
    (section 7). *)
Definition Solve (st : solver_state) (model : IModel) (precision : option Q)
    (full validate : bool) : answer * solver_state :=
  match (if validate then validations (problem_of model) else None) with
  | Some kind => (Raised (ValidationError kind), st)
  | None =>
      let p := default default_precision precision in
      let r := engine (problem_of model) (engine_options (options model)) p in
      (Returned (assemble model p full r), {| lastSolvedModel := model |})
  end.
End Solve.

(** Two option records that agree on every field but [useMIRCuts]. *)
Definition same_but_useMIRCuts (o1 o2 : IModelOptions) : Prop :=
  tolerance o1 = tolerance o2 ∧
  timeout o1 = timeout o2 ∧
  exitOnCycles o1 = exitOnCycles o2.

(** Two models that differ at most in the value of [options.useMIRCuts]. *)
Definition differ_only_in_useMIRCuts (m1 m2 : IModel) : Prop :=
  optimize m1 = optimize m2 ∧
  opType m1 = opType m2 ∧
  constraints m1 = constraints m2 ∧
  variables m1 = variables m2 ∧
  ints m1 = ints m2 ∧
  binaries m1 = binaries m2 ∧
  unrestricted m1 = unrestricted m2 ∧
  ∃ o1 o2, options m1 = Some o1 ∧ options m2 = Some o2 ∧
           same_but_useMIRCuts o1 o2.

(** A model in the style of the library's examples, its twin with the other
    value of [useMIRCuts], and stand-ins for the engine and the validations
    on which [Solve] can be run. *)
Definition sample_options (flag : bool) : IModelOptions :=
  {| tolerance := Some (1 # 100)%Q;
     timeout := Some 1000%Q;
     useMIRCuts := Some flag;
     exitOnCycles := None |}.

Definition sample_model (flag : bool) : IModel :=
  {| optimize := "total";
     opType := OpMax;
     constraints := {[ "x" := {| min := None; max := Some 6%Q; equal := None |} ]};
     variables :=
       {[ "total" := {[ "x" := 1%Q; "y" := 1%Q ]};
          "spare" := {[ "w" := 1%Q ]} ]};
     ints := None;
     binaries := None;
     unrestricted := None;
     options := Some (sample_options flag) |}.

Definition sample_engine (problem : IModel) (o : EngineOptions) (precision : Q)
    : EngineResult :=
  {| verdict := Optimal;
     x_std := λ name,
       if String.eqb name "x" then 6%Q
       else if String.eqb name "y" then 2%Q
       else 0%Q;
     z := (- 8)%Q |}.

Definition sample_validations (problem : IModel) : option ValidationKind :=
  if bool_decide (is_Some (variables problem !! optimize problem)) then None
  else Some MissingObjective.

Definition sample_solution : Solution :=
  assemble (sample_model true) default_precision false
    (sample_engine (problem_of (sample_model true))
       (engine_options (options (sample_model true))) default_precision).

Definition sample_state : solver_state :=
  {| lastSolvedModel :=
       {| optimize := ""; opType := OpMax; constraints := ∅; variables := ∅;
          ints := None; binaries := None; unrestricted := None;
          options := None |} |}.

End Solver.

(** ** The statements compared with the code *)

Module Described.

(** The error value described for the boundary with the external solver:
    [ExternalError{stage ∈ {Write, Spawn, Parse}, detail}]. *)
Definition is_ExternalError (v : value) : bool :=
  match v with
  | JObj fields =>
      match fields !! "stage" with
      | Some (JStr stage) =>
          (String.eqb stage "Write" || String.eqb stage "Spawn"
           || String.eqb stage "Parse")
          && bool_decide (is_Some (fields !! "detail"))
      | _ => false
      end
  | _ => false
  end.

(** The reason of a call of the reject callback. *)
Definition reported (c : call) : option value :=
  match c with
  | CallRej reason => Some reason
  | CallRes _ => None
  end.

(** White space, as far as one-byte characters go. *)
Definition is_whitespace (c : ascii) : bool :=
  let n := nat_of_ascii c in
  ((n =? 32) || ((9 <=? n) && (n <=? 13)))%nat.

Fixpoint skip_whitespace (s : string) : string :=
  match s with
  | String c s' => if is_whitespace c then skip_whitespace s' else s
  | EmptyString => s
  end.

(** A white-space run, optionally preceded by [:], at the head of [s] and
    followed by a digit: what follows the run. *)
Definition after_run (s : string) : option string :=
  let body := match s with String ":" s' => s' | _ => s end in
  match body with
  | String c _ =>
      if is_whitespace c && starts_with_digit (skip_whitespace body)
      then Some (skip_whitespace body)
      else None
  | EmptyString => None
  end.

(** "Split at the first white-space run (optionally preceded by [:]) that
    precedes a digit, the part before becoming the key and the part after
    the value." *)
Fixpoint described_entry (line : string) : option (string * string) :=
  match after_run line with
  | Some rest => Some ("", rest)
  | None =>
      match line with
      | String c line' =>
          match described_entry line' with
          | Some (key, v) => Some (String c key, v)
          | None => None
          end
      | EmptyString => None
      end
  end.

Fixpoint ends_with_b (suffix s : string) : bool :=
  String.eqb s suffix
  || match s with
     | String _ s' => ends_with_b suffix s'
     | EmptyString => false
     end.

Fixpoint final_char (s : string) : option ascii :=
  match s with
  | EmptyString => None
  | String c EmptyString => Some c
  | String _ s' => final_char s'
  end.

(** "A line that ends with the two characters [ 0] or whose final character
    is not a decimal digit." *)
Definition described_dropped (line : string) : bool :=
  ends_with_b " 0" line
  || negb (match final_char line with Some c => is_digit c | None => false end).

(** The object the description gives: every surviving line stores the part
    after the first run under the part before it, later lines last. *)
Definition described_store (o : gmap string value) (line : string)
    : gmap string value :=
  match described_entry line with
  | Some (key, v) => <[key := JStr v]> o
  | None => o
  end.

Definition described_clean_data (data : string) : gmap string value :=
  foldl described_store ∅
    (List.filter (λ line, negb (described_dropped line)) (CleanData.lines_of data)).

End Described.

(** * Properties *)

Import External Described.
#[local] Arguments String.append !s1 s2 : simpl nomatch.

(** ** Promises *)

Lemma settle_settled (p : promise) (cs : list call) :
  p ≠ Pending → foldl settle p cs = p.
Proof.
  revert p. induction cs as [|c cs IH]; intros p Hp; [done|].
  cbn. rewrite IH; by destruct p.
Qed.

Lemma settle_first (c : call) (cs : list call) :
  foldl settle Pending (c :: cs) = settle Pending c.
Proof. cbn. apply settle_settled. by destruct c. Qed.

(** The first call of a resolving function decides the promise; without a
    call, an exception that escapes the executor does. *)
Lemma new_Promise_first (body : Exec unit) :
  new_Promise body =
    match calls body with
    | c :: _ => settle Pending c
    | [] =>
        match completion_of body with
        | Normal _ => Pending
        | Throw e => Rejected e
        end
    end.
Proof.
  unfold new_Promise. destruct (calls body) as [|c cs]; [done|].
  rewrite settle_first. destruct (completion_of body); [done|].
  by destruct c.
Qed.

(** ** The checks of [solve] *)

Section solve_facts.
Variable Reformat : value → completion value.

Lemma get_not_nullish (base : value) (name : string) :
  nullish base = false → ∃ v, get base name = Normal v.
Proof. destruct base; cbn; intros; try discriminate; eauto. Qed.

Lemma get_Normal_not_nullish (base : value) (name : string) (v : value) :
  get base name = Normal v → nullish base = false.
Proof. by destruct base. Qed.

(** The executor unfolded along a model whose [external] can be read. *)
Lemma solve_executor_present w model data ext binPath args tempName :
  Reformat model = Normal data →
  get model "external" = Normal ext →
  get ext "binPath" = Normal binPath →
  get ext "args" = Normal args →
  get ext "tempName" = Normal tempName →
  solve_executor Reformat w model =
    ((browser_check w ++ check ext msg_external
      ++ check binPath msg_binPath ++ check args msg_args
      ++ check tempName msg_tempName)%list, Normal ()).
Proof.
  intros HR Hext Hbin Hargs Htemp. unfold solve_executor, check, browser_check.
  rewrite HR, Hext. cbn. rewrite Hbin, Hargs, Htemp.
  destruct w, (truthy ext), (truthy binPath), (truthy args),
    (truthy tempName); reflexivity.
Qed.

(** The executor when [model.external] is [undefined] or [null]. *)
Lemma solve_executor_absent w model data ext :
  Reformat model = Normal data →
  get model "external" = Normal ext →
  nullish ext = true →
  solve_executor Reformat w model =
    ((browser_check w ++ [CallRej (JStr msg_external)])%list,
     Throw (JError "TypeError" "binPath")).
Proof.
  intros HR Hext Hnull. unfold solve_executor, check, browser_check.
  rewrite HR, Hext. destruct ext; try discriminate; destruct w; reflexivity.
Qed.
End solve_facts.

Lemma check_truthy (v : value) (msg : string) :
  truthy v = true → check v msg = [].
Proof. unfold check. by intros ->. Qed.

Lemma check_falsy (v : value) (msg : string) :
  truthy v = false → check v msg = [CallRej (JStr msg)].
Proof. unfold check. by intros ->. Qed.

(** A value with a truthy property is an object, hence truthy itself. *)
Lemma truthy_holder (base : value) (name : string) (v : value) :
  get base name = Normal v → truthy v = true → truthy base = true.
Proof. destruct base; cbn; intros [= <-]; done. Qed.

(** C1: with truthy [binPath], [args] and [tempName] inside [model.external]
    and outside a browser, [solve] runs every check to the end without
    calling either resolving function: nothing is written, spawned, read or
    parsed, and the promise it returns stays pending instead of settling
    with a parsed result. *)
Theorem solve_complete_external_stays_pending
    (Reformat : value → completion value)
    (model data ext binPath args tempName : value) :
  Reformat model = Normal data →
  get model "external" = Normal ext →
  get ext "binPath" = Normal binPath → truthy binPath = true →
  get ext "args" = Normal args → truthy args = true →
  get ext "tempName" = Normal tempName → truthy tempName = true →
  calls (solve_executor Reformat false model) = [] ∧
  ran_to_end (solve_executor Reformat false model) ∧
  solve Reformat false model = Pending.
Proof.
  intros HR Hext Hbin Tbin Hargs Targs Htemp Ttemp.
  pose proof (truthy_holder _ _ _ Hbin Tbin) as Text.
  assert (solve_executor Reformat false model = ([], Normal ())) as Hrun.
  { rewrite (solve_executor_present Reformat false model data ext
               binPath args tempName) by done.
    by rewrite !check_truthy. }
  unfold solve, ran_to_end. rewrite new_Promise_first, Hrun. done.
Qed.

Lemma solve_complete_external_stays_pending_witness :
  calls (solve_executor sample_Reformat false sample_model) = [] ∧
  ran_to_end (solve_executor sample_Reformat false sample_model) ∧
  solve sample_Reformat false sample_model = Pending.
Proof.
  apply (solve_complete_external_stays_pending sample_Reformat sample_model
           (JStr "max: 1 x;") sample_external
           (JStr "C:/lpsolve/lp_solve.exe") (JArr [JStr "-S2"])
           (JStr "C:/temp/out.txt")); reflexivity.
Defined.

(** C2, as stated, fails when [model.external] itself is missing: the reject
    callback is called for it, and the read of [model.external.binPath] in
    the next check throws, so the executor does not reach its end. *)
Lemma solve_missing_external_stops :
  calls (solve_executor sample_Reformat false (JObj ∅))
    = [CallRej (JStr msg_external)] ∧
  ¬ ran_to_end (solve_executor sample_Reformat false (JObj ∅)).
Proof. split; [reflexivity|]. unfold ran_to_end. cbn. discriminate. Qed.

(** C2, amended: let the emitter return and the model be one from which
    [external] can be read.  When [model.external] is neither [undefined]
    nor [null], the executor runs to its end and calls the reject callback
    once for every falsy one among [external], [binPath], [args] and
    [tempName], in that order (after the call for a browser, if any): no
    check is skipped after an earlier violation.  When [model.external] is
    [undefined] or [null], the callback is called for that violation and for
    no later one, because the read of [model.external.binPath] in the next
    check throws a [TypeError] that ends the executor.  In both cases the
    first call alone settles the promise. *)
Theorem solve_rejects_without_returning
    (Reformat : value → completion value) (w : bool)
    (model data ext : value) :
  Reformat model = Normal data →
  get model "external" = Normal ext →
  (nullish ext = false →
     ∃ binPath args tempName,
       get ext "binPath" = Normal binPath ∧
       get ext "args" = Normal args ∧
       get ext "tempName" = Normal tempName ∧
       ran_to_end (solve_executor Reformat w model) ∧
       calls (solve_executor Reformat w model) =
         (browser_check w ++ check ext msg_external
          ++ check binPath msg_binPath ++ check args msg_args
          ++ check tempName msg_tempName)%list) ∧
  (nullish ext = true →
     calls (solve_executor Reformat w model) =
       (browser_check w ++ [CallRej (JStr msg_external)])%list ∧
     completion_of (solve_executor Reformat w model) =
       Throw (JError "TypeError" "binPath") ∧
     ¬ ran_to_end (solve_executor Reformat w model)) ∧
  solve Reformat w model =
    match calls (solve_executor Reformat w model) with
    | first :: _ => settle Pending first
    | [] => Pending
    end.
Proof.
  intros HR Hext. split; [|split].
  - intros Hnull.
    destruct (get_not_nullish ext "binPath" Hnull) as [binPath Hbin].
    destruct (get_not_nullish ext "args" Hnull) as [args Hargs].
    destruct (get_not_nullish ext "tempName" Hnull) as [tempName Htemp].
    exists binPath, args, tempName. repeat split; try done;
      by rewrite (solve_executor_present Reformat w model data ext
                    binPath args tempName).
  - intros Hnull. unfold ran_to_end.
    by rewrite (solve_executor_absent Reformat w model data ext).
  - unfold solve. rewrite new_Promise_first.
    destruct (nullish ext) eqn:Hnull.
    + rewrite (solve_executor_absent Reformat w model data ext) by done.
      by destruct w.
    + destruct (get_not_nullish ext "binPath" Hnull) as [binPath Hbin].
      destruct (get_not_nullish ext "args" Hnull) as [args Hargs].
      destruct (get_not_nullish ext "tempName" Hnull) as [tempName Htemp].
      rewrite (solve_executor_present Reformat w model data ext
                 binPath args tempName) by done.
      by destruct (_ ++ _)%list.
Qed.

Lemma solve_rejects_without_returning_witness :
  (ran_to_end (solve_executor sample_Reformat false
                 (JObj (<["external" := JObj ∅]> ∅))) ∧
   calls (solve_executor sample_Reformat false
            (JObj (<["external" := JObj ∅]> ∅))) =
     [CallRej (JStr msg_binPath); CallRej (JStr msg_args);
      CallRej (JStr msg_tempName)]) ∧
  (calls (solve_executor sample_Reformat false (JObj ∅)) =
     [CallRej (JStr msg_external)] ∧
   completion_of (solve_executor sample_Reformat false (JObj ∅)) =
     Throw (JError "TypeError" "binPath")).
Proof.
  split.
  - destruct (solve_rejects_without_returning sample_Reformat false
                (JObj (<["external" := JObj ∅]> ∅)) (JStr "max: 1 x;")
                (JObj ∅))
      as [Hpresent _]; [reflexivity | reflexivity |].
    destruct (Hpresent eq_refl) as (b & a & t & Hb & Ha & Ht & Hend & Hcalls).
    split; [exact Hend|].
    rewrite Hcalls. cbn in Hb, Ha, Ht.
    injection Hb as <-. injection Ha as <-. injection Ht as <-. reflexivity.
  - destruct (solve_rejects_without_returning sample_Reformat false
                (JObj ∅) (JStr "max: 1 x;") JUndefined)
      as (_ & Habsent & _); [reflexivity | reflexivity |].
    destruct (Habsent eq_refl) as (Hcalls & Hthrow & _).
    split; [exact Hcalls | exact Hthrow].
Defined.

(** C9: in a browser the promise returned by [solve] is rejected with the
    string "Function Not Available in Browser", whatever the model holds and
    whatever the emitter does with it. *)
Theorem solve_in_browser_rejects
    (Reformat : value → completion value) (model : value) :
  solve Reformat true model = Rejected (JStr "Function Not Available in Browser").
Proof.
  unfold solve. rewrite new_Promise_first. unfold solve_executor. cbn.
  reflexivity.
Qed.

Lemma check_messages (v : value) (msg : string) :
  msg ∈ messages → Forall is_message (check v msg).
Proof.
  intros Hmsg. unfold check. destruct (truthy v); cbn; [constructor|].
  repeat constructor. by exists msg.
Qed.

Lemma browser_check_messages (w : bool) :
  Forall is_message (browser_check w).
Proof.
  destruct w; cbn; repeat constructor. exists msg_browser.
  split; [done|]. unfold messages. set_solver.
Qed.

(** The calls of the executor split into those of the browser test and
    those of the four checks, whatever is read from the model. *)
Lemma solve_executor_calls (Reformat : value → completion value) (w : bool)
    (model : value) :
  ∃ ext binPath args tempName (n1 n2 n3 n4 : nat),
    calls (solve_executor Reformat w model) =
      (browser_check w ++ take n1 (check ext msg_external)
       ++ take n2 (check binPath msg_binPath)
       ++ take n3 (check args msg_args)
       ++ take n4 (check tempName msg_tempName))%list.
Proof.
  destruct (Reformat model) as [data|e] eqn:HR.
  2:{ exists JUndefined, JUndefined, JUndefined, JUndefined, 0, 0, 0, 0.
      unfold solve_executor. rewrite HR. destruct w; reflexivity. }
  destruct (get model "external") as [ext|e] eqn:Hext.
  2:{ exists JUndefined, JUndefined, JUndefined, JUndefined, 0, 0, 0, 0.
      unfold solve_executor. rewrite HR, Hext. destruct w; reflexivity. }
  destruct (nullish ext) eqn:Hnull.
  - exists ext, JUndefined, JUndefined, JUndefined, 1, 0, 0, 0.
    rewrite (solve_executor_absent Reformat w model data ext) by done.
    unfold check. by destruct ext.
  - destruct (get_not_nullish ext "binPath" Hnull) as [binPath Hbin].
    destruct (get_not_nullish ext "args" Hnull) as [args Hargs].
    destruct (get_not_nullish ext "tempName" Hnull) as [tempName Htemp].
    exists ext, binPath, args, tempName, 1, 1, 1, 1.
    rewrite (solve_executor_present Reformat w model data ext
               binPath args tempName) by done.
    unfold check. cbn.
    by destruct (truthy ext), (truthy binPath), (truthy args), (truthy tempName).
Qed.

(** C3, as stated, fails: without [model.external] the error reported is a
    plain string, not a value with a [stage] and a [detail]. *)
Lemma solve_reports_no_ExternalError :
  calls (solve_executor sample_Reformat false (JObj ∅))
    = [CallRej (JStr msg_external)] ∧
  ¬ Forall (λ c, ∃ reason, reported c = Some reason
                           ∧ is_ExternalError reason = true)
      (calls (solve_executor sample_Reformat false (JObj ∅))).
Proof.
  split; [reflexivity|].
  intros H. apply Forall_cons in H as [(reason & Hrep & Herr) _].
  injection Hrep as <-. discriminate.
Qed.


(** ** Strings *)

Lemma append_nil_r (s : string) : s ++ "" = s.
Proof. induction s; cbn; congruence. Qed.

Lemma append_assoc (a b c : string) : (a ++ b) ++ c = a ++ (b ++ c).
Proof. induction a; cbn; congruence. Qed.

Lemma length_append (a b : string) :
  String.length (a ++ b) = String.length a + String.length b.
Proof. induction a; cbn; congruence. Qed.

Lemma run_rx_zero (s : string) :
  run rx_zero s Some = if String.eqb s " 0" then Some "" else None.
Proof.
  destruct s as [|c [|d [|e s]]]; cbn; try done.
  - by destruct (Ascii.eqb c " ").
  - destruct (Ascii.eqb_spec c " ") as [->|]; [|done]. cbn.
    destruct (Ascii.eqb_spec d "0") as [->|]; done.
  - destruct (Ascii.eqb_spec c " ") as [->|]; [|done]. cbn.
    destruct (Ascii.eqb_spec d "0") as [->|]; done.
Qed.

Lemma run_rx_digit (s : string) :
  run rx_digit s Some =
    match s with
    | String d "" => if is_digit d then Some "" else None
    | _ => None
    end.
Proof.
  destruct s as [|d [|e s]]; cbn; try done; by destruct (is_digit d).
Qed.

(** [test] finds a match that starts at some position of the string. *)
Lemma test_true (r : regex) (s : string) :
  test r s = true ↔ ∃ p q, s = p ++ q ∧ is_Some (run r q Some).
Proof.
  induction s as [|c s IH]; cbn.
  - destruct (run r "" Some) eqn:Hrun.
    + split; [|done]. intros _. exists "", "". by rewrite Hrun.
    + split; [done|]. intros (p & q & Hs & Hq).
      destruct p; [|done]. cbn in Hs. subst q. rewrite Hrun in Hq.
      by destruct Hq.
  - destruct (run r (String c s) Some) eqn:Hrun.
    + split; [|done]. intros _. exists "", (String c s). by rewrite Hrun.
    + rewrite IH. split.
      * intros (p & q & -> & Hq). by exists (String c p), q.
      * intros (p & q & Hs & Hq). destruct p as [|c' p]; cbn in Hs.
        -- subst q. rewrite Hrun in Hq. by destruct Hq.
        -- injection Hs as -> ->. by exists p, q.
Qed.

Lemma test_rx_zero (line : string) :
  test rx_zero line = true ↔ ends_with " 0" line.
Proof.
  rewrite test_true. unfold ends_with. split.
  - intros (p & q & -> & Hq). rewrite run_rx_zero in Hq.
    destruct (String.eqb_spec q " 0") as [Heq|Hne];
      [subst q; by exists p|by destruct Hq].
  - intros (p & ->). exists p, " 0". done.
Qed.

Lemma test_rx_digit (line : string) :
  test rx_digit line = true ↔ ends_with_digit line.
Proof.
  rewrite test_true. unfold ends_with_digit. split.
  - intros (p & q & -> & Hq). rewrite run_rx_digit in Hq.
    destruct q as [|d [|e q]]; try by destruct Hq.
    destruct (is_digit d) eqn:Hd; [by exists p, d|by destruct Hq].
  - intros (p & d & -> & Hd). exists p, (String d "").
    rewrite run_rx_digit, Hd. done.
Qed.

(** The filter keeps exactly the lines that are not dropped. *)
Lemma keep_true (line : string) : keep line = true ↔ ¬ dropped line.
Proof.
  unfold keep, dropped.
  pose proof (test_rx_zero line) as Hz. pose proof (test_rx_digit line) as Hd.
  destruct (test rx_zero line), (test rx_digit line); cbn; split; try done.
  - intros H. exfalso. apply H. left. by apply Hz.
  - intros H. exfalso. apply H. left. by apply Hz.
  - intros _ [Hzero|Hnot]; [|apply Hnot; by apply Hd].
    apply Hz in Hzero. done.
  - intros H. exfalso. apply H. right. intros Hdig. by apply Hd in Hdig.
Qed.

(** *** The separator *)

Lemma spaces_skip (s : string) : s = spaces (count_spaces s) ++ skip_spaces s.
Proof.
  induction s as [|c s IH]; cbn; [done|].
  destruct (Ascii.eqb_spec c " ") as [->|]; cbn; [by rewrite <- IH|done].
Qed.

Lemma skip_spaces_digit (n : nat) (rest : string) :
  starts_with_digit rest = true → skip_spaces (spaces n ++ rest) = rest.
Proof.
  intros Hrest. induction n as [|n IH]; cbn; [|done].
  destruct rest as [|d rest]; cbn; [done|]. cbn in Hrest.
  destruct (Ascii.eqb_spec d " ") as [->|]; done.
Qed.

Lemma orelse_None {A} (x : option A) : orelse x None = x.
Proof. by destruct x. Qed.

Lemma run_ahead_digit (s : string) : run (Ahead Digit) s Some = ahead_digit s.
Proof.
  unfold ahead_digit. destruct s as [|d s]; cbn; [done|]. by destruct (is_digit d).
Qed.

Lemma ahead_digit_space (s : string) : ahead_digit (String " " s) = None.
Proof. reflexivity. Qed.

(** The later iterations of [ +] take every space there is. *)
Lemma iterate_spaces (k : string → option string) (fuel : nat) (s : string) :
  (∀ s', k s' = ahead_digit s') →
  (String.length s ≤ fuel)%nat →
  iterate (run (Chr " ")) k fuel s = ahead_digit (skip_spaces s).
Proof.
  intros Hk. revert s. induction fuel as [|fuel IH]; intros s Hlen.
  - destruct s; [apply Hk|]. cbn in Hlen. lia.
  - destruct s as [|c s]; [apply Hk|]. cbn in Hlen.
    cbn [iterate run skip_spaces].
    destruct (Ascii.eqb_spec c " ") as [->|Hc]; [|apply Hk].
    replace (String.length s <? String.length (String " " s))%nat with true
      by (symmetry; apply Nat.ltb_lt; cbn; lia).
    rewrite IH by lia. rewrite Hk, ahead_digit_space. apply orelse_None.
Qed.

Lemma run_spaces_digit (s : string) :
  run (Cat (Plus (Chr " ")) (Ahead Digit)) s Some = spaces_digit s.
Proof.
  destruct s as [|c s]; [done|].
  cbn [run]. unfold spaces_digit.
  destruct (Ascii.eqb_spec c " ") as [->|Hc]; [|done].
  apply iterate_spaces; [apply run_ahead_digit|done].
Qed.

Lemma spaces_digit_Some (s rest : string) :
  spaces_digit s = Some rest ↔
  ∃ n, s = spaces (S n) ++ rest ∧ starts_with_digit rest = true.
Proof.
  unfold spaces_digit, ahead_digit. split.
  - destruct s as [|c s]; [done|].
    destruct (Ascii.eqb_spec c " ") as [->|Hc]; [|done].
    destruct (starts_with_digit (skip_spaces s)) eqn:Hd; [|done].
    intros [= <-]. exists (count_spaces s). split; [|done].
    cbn. by rewrite <- spaces_skip.
  - intros (n & -> & Hd). cbn. by rewrite skip_spaces_digit, Hd.
Qed.

Lemma run_rx_sep (s : string) :
  run rx_sep s Some = orelse (colon_spaces_digit s) (spaces_digit s).
Proof.
  unfold rx_sep.
  change (run (Cat (Opt (Chr ":")) (Cat (Plus (Chr " ")) (Ahead Digit))) s Some)
    with (orelse
            (run (Chr ":") s
               (λ s', run (Cat (Plus (Chr " ")) (Ahead Digit)) s' Some))
            (run (Cat (Plus (Chr " ")) (Ahead Digit)) s Some)).
  rewrite run_spaces_digit. f_equal.
  destruct s as [|c s]; [done|]. cbn [run colon_spaces_digit].
  destruct (Ascii.eqb c ":"); [apply run_spaces_digit|done].
Qed.

Lemma run_rx_sep_Some (s rest : string) :
  run rx_sep s Some = Some rest ↔ separator_at s rest.
Proof.
  rewrite run_rx_sep. unfold separator_at. split.
  - destruct (colon_spaces_digit s) as [rest'|] eqn:Hcolon; cbn.
    + intros [= <-]. destruct s as [|c s]; [done|]. cbn in Hcolon.
      destruct (Ascii.eqb_spec c ":") as [->|Hc]; [|done].
      apply spaces_digit_Some in Hcolon as (n & -> & Hd).
      exists (String ":" (spaces (S n))). split; [constructor|done].
    + intros Hsp. apply spaces_digit_Some in Hsp as (n & -> & Hd).
      exists (spaces (S n)). split; [constructor|done].
  - intros (sep & Hsep & -> & Hd).
    assert (∀ n, spaces_digit (spaces (S n) ++ rest) = Some rest) as Hsp.
    { intros n. apply spaces_digit_Some. eauto. }
    destruct Hsep as [n|n].
    + rewrite Hsp. reflexivity.
    + cbn -[spaces]. by rewrite Hsp.
Qed.

Lemma separator_at_shorter (s rest : string) :
  separator_at s rest →
  ∃ n, String.length s = (S n + String.length rest)%nat.
Proof.
  intros (sep & Hsep & -> & _). rewrite length_append.
  destruct Hsep as [n|n].
  - exists (String.length (spaces n)). reflexivity.
  - exists (S (String.length (spaces n))). reflexivity.
Qed.

Lemma string_drop_append (a b : string) :
  string_drop (String.length a) (a ++ b) = b.
Proof. induction a; cbn; [by destruct b|done]. Qed.

(** The matcher used by [fields]. *)
Lemma match_len_rx_sep_None (s : string) :
  match_len rx_sep s = None ↔ ∀ rest, ¬ separator_at s rest.
Proof.
  unfold match_len. split.
  - intros Hnone rest Hsep. apply run_rx_sep_Some in Hsep.
    by rewrite Hsep in Hnone.
  - intros Hnone. destruct (run rx_sep s Some) as [rest|] eqn:Hrun; [|done].
    apply run_rx_sep_Some in Hrun. by apply Hnone in Hrun.
Qed.

Lemma match_len_rx_sep_Some (s rest : string) :
  separator_at s rest →
  ∃ n, match_len rx_sep s = Some (S n) ∧ string_drop (S n) s = rest
       ∧ String.length s = (S n + String.length rest)%nat.
Proof.
  intros Hsep. destruct (separator_at_shorter s rest Hsep) as [n Hlen].
  exists n. unfold match_len.
  pose proof Hsep as Hrun. apply run_rx_sep_Some in Hrun. rewrite Hrun.
  split; [f_equal; lia|]. split; [|done].
  destruct Hsep as (sep & Hsep & -> & _). rewrite length_append in Hlen.
  replace (S n) with (String.length sep) by lia. apply string_drop_append.
Qed.


(** *** Splitting *)

Section split_facts.
Variable sep : string → option nat.

Lemma split_from_skip (n : nat) (s : string) :
  split_from sep n true s = split_from sep 0 true (string_drop n s).
Proof.
  revert s. induction n as [|n IH]; intros s; [by destruct s|].
  destruct s as [|c s]; [done|]. cbn [split_from string_drop]. apply IH.
Qed.

(** No separator anywhere: one piece. *)
Lemma split_from_none (fresh : bool) (s : string) :
  (∀ p q, s = p ++ q → sep q = None) →
  split_from sep 0 fresh s = [s].
Proof.
  revert fresh. induction s as [|c s IH]; intros fresh Hnone; [done|].
  cbn [split_from]. rewrite (Hnone "" (String c s)) by done.
  rewrite IH; [done|]. intros p q ->. by apply (Hnone (String c p)).
Qed.

(** The first separator ends the first piece. *)
Lemma split_from_first (fresh : bool) (key s : string) (n : nat) :
  (∀ p q, key = p ++ q → q ≠ "" → sep (q ++ s) = None) →
  sep s = Some (S n) →
  s ≠ "" →
  split_from sep 0 fresh (key ++ s)
    = key :: split_from sep 0 true (string_drop (S n) s).
Proof.
  intros Hkey Hs Hne. revert fresh Hkey.
  induction key as [|c key IH]; intros fresh Hkey.
  - destruct s as [|c s]; [done|]. cbn [String.append split_from].
    rewrite Hs. by rewrite split_from_skip.
  - assert (sep (String c (key ++ s)) = None) as Hhead
      by (by apply (Hkey "" (String c key))).
    cbn [String.append split_from]. rewrite Hhead.
    rewrite IH; [done|]. intros p q -> Hq. by apply (Hkey (String c p)).
Qed.

(** Where the first separator is, if there is one. *)
Lemma first_separator (s : string) :
  (∀ p q, s = p ++ q → sep q = None) ∨
  (∃ key s' n, s = key ++ s' ∧ sep s' = Some n ∧
               ∀ p q, key = p ++ q → q ≠ "" → sep (q ++ s') = None).
Proof.
  induction s as [|c s IH].
  - destruct (sep "") as [n|] eqn:Hsep.
    + right. exists "", "", n. split; [done|]. split; [done|].
      intros p q Hpq Hq. destruct p, q; done.
    + left. intros p q Hpq. destruct p, q; done.
  - destruct (sep (String c s)) as [n|] eqn:Hsep.
    + right. exists "", (String c s), n. split; [done|]. split; [done|].
      intros p q Hpq Hq. destruct p, q; done.
    + destruct IH as [Hnone|(key & s' & n & -> & Hs' & Hkey)].
      * left. intros p q Hpq. destruct p as [|c' p]; cbn in Hpq.
        -- by subst q.
        -- injection Hpq as -> ->. by apply (Hnone p).
      * right. exists (String c key), s', n. split; [done|]. split; [done|].
        intros p q Hpq Hq. destruct p as [|c' p]; cbn in Hpq.
        -- by subst q.
        -- injection Hpq as -> ->. by apply (Hkey p).
Qed.
End split_facts.

Lemma fields_split_from (line : string) :
  fields line = split_from (match_len rx_sep) 0 true line.
Proof. by destruct line. Qed.

(** [Fields] describes what [fields] computes. *)
Lemma Fields_fields (line : string) (fs : list string) :
  Fields line fs → fields line = fs.
Proof.
  induction 1 as [line Hnone|key s rest more Hkey Hsep _ IH];
    rewrite fields_split_from.
  - apply split_from_none. intros p q Hpq.
    apply match_len_rx_sep_None. intros rest. by apply (Hnone p).
  - destruct (match_len_rx_sep_Some s rest Hsep) as (n & Hlen & Hdrop & Hs).
    rewrite (split_from_first _ _ key s n); [| |done|].
    + by rewrite Hdrop, <- fields_split_from, IH.
    + intros p q Hpq Hq. apply match_len_rx_sep_None. intros rest'.
      by apply (Hkey p).
    + intros ->. cbn in Hs. lia.
Qed.

Lemma Fields_total (line : string) : ∃ fs, Fields line fs.
Proof.
  remember (String.length line) as n eqn:Hn.
  revert line Hn. induction (lt_wf n) as [n _ IH]; intros line ->.
  destruct (first_separator (match_len rx_sep) line)
    as [Hnone|(key & s & len & -> & Hs & Hkey)].
  - exists [line]. constructor. intros p q rest Hpq.
    by apply match_len_rx_sep_None, (Hnone p).
  - unfold match_len in Hs.
    destruct (run rx_sep s Some) as [rest|] eqn:Hrun; [|done].
    apply run_rx_sep_Some in Hrun.
    destruct (separator_at_shorter s rest Hrun) as [k Hlen].
    destruct (IH (String.length rest)) with (line := rest) as [more Hmore];
      [rewrite length_append; lia|done|].
    exists (key :: more). apply (Fields_next key s rest more); [|done|done].
    intros p q rest' Hpq Hq. by apply match_len_rx_sep_None, (Hkey p).
Qed.

Lemma Fields_iff (line : string) (fs : list string) :
  Fields line fs ↔ fields line = fs.
Proof.
  split; [apply Fields_fields|]. intros <-.
  destruct (Fields_total line) as [fs Hfs].
  by rewrite (Fields_fields line fs Hfs).
Qed.

Lemma fields_nonempty (line : string) : ∃ key more, fields line = key :: more.
Proof.
  destruct (Fields_total line) as [fs Hfs].
  rewrite (Fields_fields line fs Hfs). destruct Hfs; eauto.
Qed.

(** *** Lines *)

Lemma prefix_true (a s : string) :
  String.prefix a s = true ↔ ∃ rest, s = a ++ rest.
Proof.
  revert s. induction a as [|c a IH]; intros s.
  - cbn. split; [intros _; by exists s|by destruct s].
  - destruct s as [|d s]; cbn.
    + split; [done|]. by intros [rest Hrest].
    + destruct (Ascii.ascii_dec c d) as [->|Hcd].
      * rewrite IH. split; intros [rest Hrest]; exists rest; congruence.
      * split; [done|]. intros [rest [= ? ?]]. done.
Qed.

Lemma literal_Some (sep s : string) (n : nat) :
  literal sep s = Some n ↔ n = String.length sep ∧ ∃ rest, s = sep ++ rest.
Proof.
  unfold literal. rewrite <- prefix_true.
  destruct (String.prefix sep s); split; try done.
  - intros [= <-]. done.
  - intros [-> _]. done.
  - by intros [_ ?].
Qed.

Lemma literal_None (sep s : string) :
  literal sep s = None ↔ ∀ rest, s ≠ sep ++ rest.
Proof.
  unfold literal. pose proof (prefix_true sep s) as Hp.
  destruct (String.prefix sep s); split; try done.
  - intros Hnone. destruct Hp as [[rest Hrest] _]; [done|]. by apply Hnone in Hrest.
  - intros _ rest Hrest. destruct Hp as [_ Hp]. by discriminate Hp; eauto.
Qed.

Lemma split_from_nonempty sep n fresh s : split_from sep n fresh s ≠ [].
Proof.
  revert n fresh. induction s as [|c s IH]; intros n fresh; [done|].
  cbn. destruct n as [|n]; [|apply IH].
  destruct (sep (String c s)) as [[|k]|]; try done;
    try (destruct fresh; [|done]);
    by destruct (split_from sep 0 false s) eqn:Hs; [apply IH in Hs|].
Qed.

Lemma concat_cons (sep x : string) (xs : list string) :
  xs ≠ [] → String.concat sep (x :: xs) = x ++ sep ++ String.concat sep xs.
Proof. by destruct xs. Qed.

Lemma split_string_split_from (sep s : string) :
  sep ≠ "" → split_string sep s = split_from (literal sep) 0 true s.
Proof.
  intros Hsep. destruct s; [|done]. unfold split_string, split_with.
  destruct (literal sep "") eqn:Hlit; [|done].
  apply literal_Some in Hlit as [_ [rest Hrest]]. by destruct sep.
Qed.

(** The pieces of [s.split(sep)] contain no [sep], and joined by [sep] they
    give [s] back. *)
Lemma split_string_pieces (sep s : string) :
  sep ≠ "" →
  String.concat sep (split_string sep s) = s
  ∧ Forall (free_of sep) (split_string sep s).
Proof.
  intros Hsep. rewrite split_string_split_from by done.
  remember (String.length s) as n eqn:Hn.
  revert s Hn. induction (lt_wf n) as [n _ IH]; intros s ->.
  destruct (first_separator (literal sep) s)
    as [Hnone|(key & s' & len & -> & Hs' & Hkey)].
  - rewrite split_from_none by done. split; [done|].
    repeat constructor. intros p q ->.
    specialize (Hnone p (sep ++ q) eq_refl).
    rewrite literal_None in Hnone. by apply (Hnone q).
  - pose proof Hs' as [-> [rest ->]]%literal_Some.
    assert (sep ++ rest ≠ "") as Hne by (by destruct sep).
    destruct sep as [|c sep]; [done|].
    rewrite (split_from_first _ _ key _ (String.length sep)) by done.
    change (S (String.length sep)) with (String.length (String c sep)).
    rewrite string_drop_append.
    destruct (IH (String.length rest)) with (s := rest) as [Hjoin Hfree];
      [rewrite !length_append; cbn; lia|done|].
    split.
    + rewrite concat_cons by apply split_from_nonempty. by rewrite Hjoin.
    + constructor; [|done]. intros p q ->.
      assert (String c sep ++ q ≠ "") as Hq by done.
      pose proof (Hkey p (String c sep ++ q) eq_refl Hq) as Hocc.
      rewrite literal_None in Hocc.
      apply (Hocc (q ++ String c sep ++ rest)). by rewrite append_assoc.
Qed.

Lemma replace_first_spec (pat rep s : string) :
  (free_of pat s ∧ replace_first pat rep s = s) ∨
  (∃ p q, s = p ++ pat ++ q ∧ first_occurrence pat p s
          ∧ replace_first pat rep s = p ++ rep ++ q).
Proof.
  induction s as [|c s IH].
  - cbn [replace_first]. destruct (String.prefix pat "") eqn:Hpre.
    + right. apply prefix_true in Hpre as [rest Hrest].
      destruct pat; [|by cbn in Hrest]. exists "", "". split; [done|]. split.
      * intros a b _. cbn. lia.
      * reflexivity.
    + left. split; [|done]. intros p q Heq.
      assert (String.prefix pat "" = true) as Hp; [|congruence].
      apply prefix_true. destruct p; [|by cbn in Heq]. eauto.
  - cbn [replace_first]. destruct (String.prefix pat (String c s)) eqn:Hpre.
    + right. apply prefix_true in Hpre as [rest Hrest].
      exists "", rest. split; [done|]. split.
      * intros a b _. cbn. lia.
      * rewrite Hrest, string_drop_append. done.
    + assert (∀ rest, String c s ≠ pat ++ rest) as Hhead.
      { intros rest Hrest.
        assert (String.prefix pat (String c s) = true) as Hp; [|congruence].
        apply prefix_true. eauto. }
      destruct IH as [[Hfree ->]|(p & q & -> & Hfirst & ->)].
      * left. split; [|done]. intros p q Heq.
        destruct p as [|d p]; [by apply (Hhead q)|].
        injection Heq as -> Heq. by apply (Hfree p q).
      * right. exists (String c p), q. split; [done|]. split; [|done].
        intros a b Heq. destruct a as [|d a]; [by apply Hhead in Heq|].
        injection Heq as -> Heq. apply Hfirst in Heq. cbn. lia.
Qed.

(** The lines of [clean_data]: the input with its first escaped CR LF made
    a real one, cut at every CR LF. *)
Lemma lines_of_spec (data : string) :
  String.concat CRLF (lines_of data) = replace_first escaped_CRLF CRLF data
  ∧ Forall (free_of CRLF) (lines_of data).
Proof. by apply split_string_pieces. Qed.

Lemma keep_false (line : string) : keep line = false ↔ dropped line.
Proof.
  unfold keep, dropped.
  pose proof (test_rx_zero line) as Hz. pose proof (test_rx_digit line) as Hd.
  destruct (test rx_zero line), (test rx_digit line); cbn; split; try done.
  - intros _. left. by apply Hz.
  - intros _. left. by apply Hz.
  - intros [Hzero|Hnot]; [by apply Hz in Hzero|]. exfalso. apply Hnot. by apply Hd.
  - intros _. right. intros Hdig. by apply Hd in Hdig.
Qed.

(** *** The object that is built *)

Lemma clean_data_steps (o : gmap string value) (ls : list string) :
  foldl store o (map fields (List.filter keep ls)) = foldl step o ls.
Proof.
  revert o. induction ls as [|l ls IH]; intros o; [done|].
  cbn. unfold step at 2. destruct (keep l); cbn; apply IH.
Qed.

Lemma step_writes (o : gmap string value) (line key : string) :
  writes line key → step o line !! key = Some (item (fields line) 1).
Proof.
  intros (Hkeep & Hproto & more & Hfs). unfold step, store, set_property.
  rewrite Hkeep, Hfs. cbn.
  destruct (String.eqb_spec key "__proto__"); [done|].
  apply lookup_insert_eq.
Qed.

Lemma step_other (o : gmap string value) (line key : string) :
  ¬ writes line key → step o line !! key = o !! key.
Proof.
  intros Hnot. unfold step, store, set_property.
  destruct (keep line) eqn:Hkeep; [|done].
  destruct (fields_nonempty line) as (k & more & Hfs). rewrite Hfs. cbn.
  destruct (String.eqb_spec k "__proto__") as [->|Hk]; [done|].
  apply lookup_insert_ne. intros ->. apply Hnot. unfold writes. eauto.
Qed.

Lemma writes_dec (line key : string) : writes line key ∨ ¬ writes line key.
Proof.
  unfold writes. destruct (keep line); [|right; by intros [? _]].
  destruct (decide (key = "__proto__")) as [->|Hproto];
    [right; by intros (_ & ? & _)|].
  destruct (fields_nonempty line) as (k & more & Hfs).
  destruct (decide (k = key)) as [->|Hk]; [left; eauto|].
  right. intros (_ & _ & more' & Hfs'). congruence.
Qed.

Lemma snoc_split {A} (ls b a : list A) (l x : A) :
  (ls ++ [l] = b ++ x :: a)%list →
  (a = [] ∧ ls = b ∧ l = x) ∨ (∃ a', a = (a' ++ [l])%list ∧ ls = (b ++ x :: a')%list).
Proof.
  intros Heq. destruct a as [|y a _] using rev_ind.
  - left. apply app_inj_tail in Heq as [-> ->]. done.
  - right. exists a.
    change (b ++ x :: a ++ [y])%list with (b ++ (x :: a) ++ [y])%list in Heq.
    rewrite app_assoc in Heq. apply app_inj_tail in Heq as [-> ->]. done.
Qed.

(** What is stored under [key] comes from the last line that writes it. *)
Lemma foldl_step_lookup (ls : list string) (o : gmap string value)
    (key : string) (v : value) :
  foldl step o ls !! key = Some v ↔
  (∃ b l a, ls = (b ++ l :: a)%list ∧ writes l key ∧ v = item (fields l) 1
            ∧ Forall (λ l', ¬ writes l' key) a)
  ∨ (o !! key = Some v ∧ Forall (λ l', ¬ writes l' key) ls).
Proof.
  induction ls as [|l ls IH] using rev_ind.
  - cbn. split.
    + intros Ho. right. by split.
    + intros [(b & l & a & Heq & _)|[Ho _]]; [by destruct b|done].
  - rewrite foldl_app. cbn [foldl].
    destruct (writes_dec l key) as [Hw|Hw].
    + rewrite (step_writes _ _ _ Hw). split.
      * intros [= <-]. left. exists ls, l, [].
        split; [done|]. split; [done|]. split; [done|constructor].
      * intros [(b & x & a & Heq & Hx & -> & Ha)|[_ Hall]].
        -- apply snoc_split in Heq as [(-> & -> & ->)|(a' & -> & ->)]; [done|].
           apply Forall_app in Ha as [_ Hl]. apply Forall_cons in Hl as [Hl _].
           done.
        -- apply Forall_app in Hall as [_ Hl].
           apply Forall_cons in Hl as [Hl _]. done.
    + rewrite (step_other _ _ _ Hw), IH. split.
      * intros [(b & x & a & -> & Hx & -> & Ha)|[Ho Hall]].
        -- left. exists b, x, (a ++ [l])%list. split; [by rewrite <- app_assoc|].
           split; [done|]. split; [done|]. apply Forall_app. split; [done|].
           by repeat constructor.
        -- right. split; [done|]. apply Forall_app. split; [done|].
           by repeat constructor.
      * intros [(b & x & a & Heq & Hx & -> & Ha)|[Ho Hall]].
        -- apply snoc_split in Heq as [(-> & -> & ->)|(a' & -> & ->)]; [done|].
           left. exists b, x, a'. apply Forall_app in Ha as [Ha _].
           split; [done|]. split; [done|]. by split.
        -- right. apply Forall_app in Hall as [Hall _]. done.
Qed.

Lemma writes_iff (line key : string) :
  writes line key ↔
  ¬ dropped line ∧ key ≠ "__proto__"
  ∧ ∃ fs, Fields line fs ∧ fs !! 0 = Some key.
Proof.
  unfold writes. rewrite <- keep_false. split.
  - intros (Hkeep & Hproto & more & Hfs). split; [by rewrite Hkeep|].
    split; [done|]. exists (key :: more). split; [by apply Fields_iff|done].
  - intros (Hkeep & Hproto & fs & Hfs & Hkey). split; [by destruct (keep line)|].
    split; [done|]. apply Fields_iff in Hfs. rewrite Hfs.
    destruct fs as [|k more]; [done|]. injection Hkey as ->. eauto.
Qed.

Lemma not_writes_iff (line key : string) :
  key ≠ "__proto__" →
  ¬ writes line key ↔
  dropped line ∨ ∀ fs, Fields line fs → fs !! 0 ≠ Some key.
Proof.
  intros Hproto. rewrite writes_iff, <- keep_false. split.
  - intros Hnot. destruct (keep line) eqn:Hkeep; [|by left].
    right. intros fs Hfs Hkey. apply Hnot. split; [done|]. eauto.
  - intros [Hdrop|Hother] (Hkeep & _ & fs & Hfs & Hkey); [done|].
    by apply (Hother fs).
Qed.

(** The report of a run: the zero-valued variable and the headings are
    left out, and of the two numbers of [R2] only the first is kept. *)
Example clean_data_sample_report :
  clean_data sample_report =
    {[ "Value of objective function" := JStr "8";
       "x" := JStr "6"; "y" := JStr "2";
       "R1" := JStr "10"; "R2" := JStr "16" ]}.
Proof. vm_compute. reflexivity. Qed.

(** C10, as stated, fails on a line with two runs of spaces before digits:
    the value stored is the text between the first run and the second, not
    all that comes after the first. *)
Lemma clean_data_value_ends_at_next_run :
  described_entry "x 1 2" = Some ("x", "1 2") ∧
  clean_data "x 1 2" !! "x" = Some (JStr "1") ∧
  clean_data "x 1 2" ≠ described_clean_data "x 1 2".
Proof.
  split; [reflexivity|]. split; [by vm_compute|].
  intros Heq. apply (f_equal (λ o, o !! "x")) in Heq.
  vm_compute in Heq. discriminate.
Qed.

(** What is stored under a key, read off the lines. *)
Lemma clean_data_lookup (data key : string) (v : value) :
  clean_data data !! key = Some v ↔
  key ≠ "__proto__" ∧
  ∃ before line after fs,
    lines_of data = (before ++ line :: after)%list ∧
    ¬ dropped line ∧
    Fields line fs ∧ fs !! 0 = Some key ∧ v = item fs 1 ∧
    Forall (λ later, dropped later
                     ∨ ∀ fs', Fields later fs' → fs' !! 0 ≠ Some key) after.
Proof.
  unfold clean_data. rewrite clean_data_steps, foldl_step_lookup. split.
  - intros [(b & l & a & Hlines & Hw & -> & Ha)|[Hempty _]]; [|done].
    pose proof Hw as (Hkeep & Hproto & fs & Hfs & Hkey)%writes_iff.
    split; [done|]. exists b, l, a, fs.
    split; [done|]. split; [done|]. split; [done|]. split; [done|].
    split; [by apply Fields_iff in Hfs as ->|].
    eapply Forall_impl; [exact Ha|]. intros later. by apply not_writes_iff.
  - intros (Hproto & b & l & a & fs & Hlines & Hkeep & Hfs & Hkey & -> & Ha).
    left. exists b, l, a. split; [done|].
    split; [apply writes_iff; eauto 6|].
    split; [by apply Fields_iff in Hfs as ->|].
    eapply Forall_impl; [exact Ha|]. intros later. by apply not_writes_iff.
Qed.

(** ** The declared signatures of [ReformatLP] *)

Import Declarations.

(** C6, as stated, fails: for a model the declared result is a single
    string, not an array of lines. *)
Lemma ReformatLP_of_model_not_lines :
  return_type ReformatLP TModel ≠ Some (TArray TString).
Proof. discriminate. Qed.

(** C6, amended: [ReformatLP] applied to an array of text lines is declared
    to return a model, and applied to a model it is declared to return one
    string, the LP text. *)
Theorem ReformatLP_signatures :
  return_type ReformatLP (TArray TString) = Some TModel ∧
  return_type ReformatLP TModel = Some TString.
Proof. split; reflexivity. Qed.

(** ** [Solve], as far as the specification fixes it *)

Import Solver.

Lemma exceeds_true (precision v : Q) :
  exceeds precision v = true ↔ (precision < Qabs v)%Q.
Proof.
  unfold exceeds. rewrite negb_true_iff.
  destruct (Qle_bool (Qabs v) precision) eqn:Hle.
  - apply Qle_bool_iff in Hle. split; [done|].
    intros Hlt. by apply Qlt_not_le in Hlt.
  - split; [|done]. intros _. apply Qnot_le_lt. intros Hle'.
    apply Qle_bool_iff in Hle'. congruence.
Qed.

Lemma assemble_entries (m : IModel) (precision : Q) (full : bool)
    (r : EngineResult) (name : string) (v : Q) :
  entries (assemble m precision full r) !! name = Some v ↔
  (∃ coeffs, variables m !! name = Some coeffs
             ∧ v = assembled_value (x_std r) coeffs)
  ∧ included precision full v = true.
Proof.
  cbn. rewrite map_lookup_filter_Some, lookup_fmap. cbn.
  destruct (variables m !! name) as [coeffs|]; cbn.
  - split.
    + intros [[= <-] Hin]. eauto.
    + intros [(coeffs' & [= <-] & ->) Hin]. done.
  - split; [by intros [? _]|]. by intros [(? & ? & _) _].
Qed.

(** C5: the solution that [Solve] returns has an entry for a name exactly
    when the name is a declared solution variable and either [full] is set
    or the magnitude of its assembled value exceeds the precision; the entry
    holds that value.  So without [full] only values beyond the precision
    appear, and with [full] the zero-valued variables appear as well. *)
Theorem Solve_entries
    (engine : IModel → EngineOptions → Q → EngineResult)
    (validations : IModel → option ValidationKind)
    (st st' : solver_state) (model : IModel) (precision : option Q)
    (full validate : bool) (sol : Solution) (name : string) :
  Solve engine validations st model precision full validate
    = (Returned sol, st') →
  let p := default default_precision precision in
  let x := x_std (engine (problem_of model) (engine_options (options model)) p) in
  ∀ v, entries sol !! name = Some v ↔
       ∃ coeffs, variables model !! name = Some coeffs
                 ∧ v = assembled_value x coeffs
                 ∧ (full = true ∨ (p < Qabs v)%Q).
Proof.
  unfold Solve.
  destruct (if validate then validations (problem_of model) else None);
    [done|].
  intros Heq v. injection Heq as <- <-.
  rewrite assemble_entries. unfold included.
  rewrite orb_true_iff, exceeds_true. split.
  - intros [(coeffs & Hc & Hv) Hin]. eauto.
  - intros (coeffs & Hc & Hv & Hin). eauto.
Qed.

Lemma Solve_entries_witness :
  entries sample_solution !! "total" = Some 8%Q ↔
  ∃ coeffs, variables (sample_model true) !! "total" = Some coeffs
            ∧ 8%Q = assembled_value
                      (x_std (sample_engine (problem_of (sample_model true))
                                (engine_options (options (sample_model true)))
                                default_precision)) coeffs
            ∧ (false = true ∨ (default_precision < Qabs 8)%Q).
Proof.
  apply (Solve_entries sample_engine sample_validations sample_state
           {| lastSolvedModel := sample_model true |} (sample_model true)
           None false true sample_solution "total").
  vm_compute. reflexivity.
Defined.

(** C7: when [Solve] returns a solution, [lastSolvedModel] is the model it
    was given, whatever it held before; when [Solve] raises an error,
    [lastSolvedModel] is what it was. *)
Theorem Solve_lastSolvedModel
    (engine : IModel → EngineOptions → Q → EngineResult)
    (validations : IModel → option ValidationKind)
    (st : solver_state) (model : IModel) (precision : option Q)
    (full validate : bool) :
  match Solve engine validations st model precision full validate with
  | (Returned _, st') => lastSolvedModel st' = model
  | (Raised _, st') => st' = st
  end.
Proof.
  unfold Solve.
  by destruct (if validate then validations (problem_of model) else None).
Qed.

Lemma differ_only_in_useMIRCuts_problem (m1 m2 : IModel) :
  differ_only_in_useMIRCuts m1 m2 →
  problem_of m1 = problem_of m2
  ∧ engine_options (options m1) = engine_options (options m2)
  ∧ ∀ p full r, assemble m1 p full r = assemble m2 p full r.
Proof.
  intros (Hopt & Htype & Hcons & Hvars & Hints & Hbins & Hun
          & o1 & o2 & Ho1 & Ho2 & Htol & Htime & Hexit).
  destruct m1, m2, o1, o2. cbn in *. subst. done.
Qed.

(** C8: two models that differ only in the value of [options.useMIRCuts]
    get the same answer from [Solve]: the same solution, or the same
    error. *)
Theorem Solve_ignores_useMIRCuts
    (engine : IModel → EngineOptions → Q → EngineResult)
    (validations : IModel → option ValidationKind)
    (st : solver_state) (m1 m2 : IModel) (precision : option Q)
    (full validate : bool) :
  differ_only_in_useMIRCuts m1 m2 →
  (Solve engine validations st m1 precision full validate).1
  = (Solve engine validations st m2 precision full validate).1.
Proof.
  intros (Hproblem & Hoptions & Hassemble)%differ_only_in_useMIRCuts_problem.
  unfold Solve. rewrite Hproblem, Hoptions.
  destruct (if validate then validations (problem_of m2) else None); [done|].
  cbn. by rewrite Hassemble.
Qed.

Lemma Solve_ignores_useMIRCuts_witness :
  (Solve sample_engine sample_validations sample_state (sample_model true)
     None false true).1
  = (Solve sample_engine sample_validations sample_state (sample_model false)
       None false true).1.
Proof.
  apply (Solve_ignores_useMIRCuts sample_engine sample_validations sample_state
           (sample_model true) (sample_model false) None false true).
  repeat split. exists (sample_options true), (sample_options false).
  repeat split.
Defined.

(** Both cases of [Solve_lastSolvedModel] occur: a model whose objective is
    declared is solved and remembered, and one whose objective is not
    declared is refused by the validations and leaves the state alone. *)
Example Solve_remembers_sample :
  (Solve sample_engine sample_validations sample_state (sample_model true)
     None false true).2
  = {| lastSolvedModel := sample_model true |}.
Proof. vm_compute. reflexivity. Qed.

Example Solve_refuses_empty_model :
  Solve sample_engine sample_validations
    {| lastSolvedModel := sample_model true |} (lastSolvedModel sample_state)
    None false true
  = (Raised (ValidationError MissingObjective),
     {| lastSolvedModel := sample_model true |}).
Proof. vm_compute. reflexivity. Qed.

(** * Further properties *)

(** ** More on [solve] *)

(** The executor when the emitter throws. *)
Lemma solve_executor_throws (Reformat : value → completion value) (w : bool)
    (model e : value) :
  Reformat model = Throw e →
  solve_executor Reformat w model = (browser_check w, Throw e).
Proof.
  intros HR. unfold solve_executor, browser_check. rewrite HR.
  by destruct w.
Qed.

(** The executor when [model.external] cannot be read. *)
Lemma solve_executor_unreadable (Reformat : value → completion value) (w : bool)
    (model data e : value) :
  Reformat model = Normal data →
  get model "external" = Throw e →
  solve_executor Reformat w model = (browser_check w, Throw e).
Proof.
  intros HR Hext. unfold solve_executor, browser_check. rewrite HR, Hext.
  by destruct w.
Qed.

(** X1: the promise returned by [solve] stays pending in one case only:
    outside a browser, when the emitter returns and [model.external] holds
    a truthy [binPath], a truthy [args] and a truthy [tempName].  In
    every other case the promise is settled. *)
Theorem solve_pending_iff
    (Reformat : value → completion value) (w : bool) (model : value) :
  solve Reformat w model = Pending ↔
  w = false ∧ (∃ data, Reformat model = Normal data) ∧
  ∃ ext binPath args tempName,
    get model "external" = Normal ext ∧
    get ext "binPath" = Normal binPath ∧ truthy binPath = true ∧
    get ext "args" = Normal args ∧ truthy args = true ∧
    get ext "tempName" = Normal tempName ∧ truthy tempName = true.
Proof.
  unfold solve. rewrite new_Promise_first. split.
  - destruct (Reformat model) as [data|e] eqn:HR.
    2:{ rewrite (solve_executor_throws Reformat w model e HR).
        by destruct w. }
    destruct (get model "external") as [ext|e] eqn:Hext.
    2:{ rewrite (solve_executor_unreadable Reformat w model data e HR Hext).
        by destruct w. }
    destruct (nullish ext) eqn:Hnull.
    { rewrite (solve_executor_absent Reformat w model data ext HR Hext Hnull).
      by destruct w. }
    destruct (get_not_nullish ext "binPath" Hnull) as [binPath Hbin].
    destruct (get_not_nullish ext "args" Hnull) as [args Hargs].
    destruct (get_not_nullish ext "tempName" Hnull) as [tempName Htemp].
    rewrite (solve_executor_present Reformat w model data ext
               binPath args tempName) by done.
    cbn [calls fst completion_of snd].
    destruct w; [done|]. cbn [browser_check calls when fst mret Exec_ret app].
    unfold check.
    destruct (truthy ext) eqn:Text; [|done].
    destruct (truthy binPath) eqn:Tbin; [|done].
    destruct (truthy args) eqn:Targs; [|done].
    destruct (truthy tempName) eqn:Ttemp; [|done].
    intros _. split; [done|]. split; [by exists data|].
    by exists ext, binPath, args, tempName.
  - intros (-> & [data HR] & ext & binPath & args & tempName
            & Hext & Hbin & Tbin & Hargs & Targs & Htemp & Ttemp).
    pose proof (truthy_holder _ _ _ Hbin Tbin) as Text.
    rewrite (solve_executor_present Reformat false model data ext
               binPath args tempName) by done.
    by rewrite !check_truthy.
Qed.

(** X2: outside a browser, an exception thrown by the emitter rejects the
    promise with that exception, and none of the checks is made. *)
Theorem solve_emitter_exception
    (Reformat : value → completion value) (model e : value) :
  Reformat model = Throw e →
  solve Reformat false model = Rejected e
  ∧ calls (solve_executor Reformat false model) = [].
Proof.
  intros HR. unfold solve. rewrite new_Promise_first.
  by rewrite (solve_executor_throws Reformat false model e HR).
Qed.

Lemma solve_emitter_exception_witness :
  solve failing_Reformat false External.sample_model
    = Rejected (JStr "Solver requires a model to operate on")
  ∧ calls (solve_executor failing_Reformat false External.sample_model) = [].
Proof.
  apply (solve_emitter_exception failing_Reformat External.sample_model
           (JStr "Solver requires a model to operate on")).
  reflexivity.
Defined.

(** X3: outside a browser, when the emitter returns and [model.external]
    can be read, the promise is rejected with the message of the first
    check that fails, in the order [external], [binPath], [args],
    [tempName]; later failures do not change the reason. *)
Theorem solve_rejection_reason
    (Reformat : value → completion value) (model data ext : value) :
  Reformat model = Normal data →
  get model "external" = Normal ext →
  (truthy ext = false →
     solve Reformat false model = Rejected (JStr msg_external)) ∧
  (∀ binPath, get ext "binPath" = Normal binPath →
     truthy ext = true → truthy binPath = false →
     solve Reformat false model = Rejected (JStr msg_binPath)) ∧
  (∀ binPath args,
     get ext "binPath" = Normal binPath → get ext "args" = Normal args →
     truthy binPath = true → truthy args = false →
     solve Reformat false model = Rejected (JStr msg_args)) ∧
  (∀ binPath args tempName,
     get ext "binPath" = Normal binPath → get ext "args" = Normal args →
     get ext "tempName" = Normal tempName →
     truthy binPath = true → truthy args = true → truthy tempName = false →
     solve Reformat false model = Rejected (JStr msg_tempName)).
Proof.
  intros HR Hext.
  assert (∀ binPath args tempName,
            get ext "binPath" = Normal binPath → get ext "args" = Normal args →
            get ext "tempName" = Normal tempName →
            solve Reformat false model =
              match (check ext msg_external ++ check binPath msg_binPath
                     ++ check args msg_args ++ check tempName msg_tempName)%list
              with
              | first :: _ => settle Pending first
              | [] => Pending
              end) as Hpresent.
  { intros binPath args tempName Hbin Hargs Htemp.
    unfold solve. rewrite new_Promise_first.
    by rewrite (solve_executor_present Reformat false model data ext
                  binPath args tempName). }
  split; [|split; [|split]].
  - intros Text. destruct (nullish ext) eqn:Hnull.
    + unfold solve. rewrite new_Promise_first.
      by rewrite (solve_executor_absent Reformat false model data ext).
    + destruct (get_not_nullish ext "binPath" Hnull) as [binPath Hbin].
      destruct (get_not_nullish ext "args" Hnull) as [args Hargs].
      destruct (get_not_nullish ext "tempName" Hnull) as [tempName Htemp].
      rewrite (Hpresent binPath args tempName) by done.
      by rewrite (check_falsy ext) by done.
  - intros binPath Hbin Text Tbin.
    pose proof (get_Normal_not_nullish _ _ _ Hbin) as Hnull.
    destruct (get_not_nullish ext "args" Hnull) as [args Hargs].
    destruct (get_not_nullish ext "tempName" Hnull) as [tempName Htemp].
    rewrite (Hpresent binPath args tempName) by done.
    by rewrite (check_truthy ext), (check_falsy binPath) by done.
  - intros binPath args Hbin Hargs Tbin Targs.
    pose proof (get_Normal_not_nullish _ _ _ Hbin) as Hnull.
    pose proof (truthy_holder _ _ _ Hbin Tbin) as Text.
    destruct (get_not_nullish ext "tempName" Hnull) as [tempName Htemp].
    rewrite (Hpresent binPath args tempName) by done.
    by rewrite (check_truthy ext), (check_truthy binPath), (check_falsy args)
      by done.
  - intros binPath args tempName Hbin Hargs Htemp Tbin Targs Ttemp.
    pose proof (truthy_holder _ _ _ Hbin Tbin) as Text.
    rewrite (Hpresent binPath args tempName) by done.
    by rewrite (check_truthy ext), (check_truthy binPath), (check_truthy args),
      (check_falsy tempName) by done.
Qed.

Lemma solve_rejection_reason_witness :
  solve sample_Reformat false partial_model = Rejected (JStr msg_args).
Proof.
  destruct (solve_rejection_reason sample_Reformat partial_model
              (JStr "max: 1 x;")
              (JObj (<["binPath" := JStr "C:/lpsolve/lp_solve.exe"]> ∅)))
    as (_ & _ & Hargs & _); [reflexivity | reflexivity |].
  apply (Hargs (JStr "C:/lpsolve/lp_solve.exe") JUndefined); reflexivity.
Defined.

(** X4: outside a browser, when the emitter returns although the model is
    [undefined] or [null], the read of [model.external] throws and the
    promise is rejected with that [TypeError], not with one of the
    messages. *)
Theorem solve_without_model
    (Reformat : value → completion value) (model data : value) :
  nullish model = true →
  Reformat model = Normal data →
  solve Reformat false model = Rejected (JError "TypeError" "external")
  ∧ calls (solve_executor Reformat false model) = [].
Proof.
  intros Hnull HR.
  assert (get model "external" = Throw (JError "TypeError" "external")) as Hext
    by (by destruct model).
  unfold solve. rewrite new_Promise_first.
  by rewrite (solve_executor_unreadable Reformat false model data _ HR Hext).
Qed.

Lemma solve_without_model_witness :
  solve sample_Reformat false JUndefined
    = Rejected (JError "TypeError" "external")
  ∧ calls (solve_executor sample_Reformat false JUndefined) = [].
Proof.
  apply (solve_without_model sample_Reformat JUndefined (JStr "max: 1 x;"));
    reflexivity.
Defined.

(** ** More on [clean_data] *)

Lemma contains_false (sep s : string) : contains sep s = false → free_of sep s.
Proof.
  induction s as [|c s IH]; cbn [contains]; intros Hc p q Heq.
  - apply orb_false_iff in Hc as [Hpre _].
    assert (String.prefix sep "" = true) as Hp; [|congruence].
    apply prefix_true. destruct p; [|by cbn in Heq]. eauto.
  - apply orb_false_iff in Hc as [Hpre Hrest].
    destruct p as [|d p].
    + assert (String.prefix sep (String c s) = true) as Hp; [|congruence].
      apply prefix_true. eauto.
    + injection Heq as -> Heq. by apply (IH Hrest p q).
Qed.

Lemma free_of_app_l (sep a b : string) : free_of sep (a ++ b) → free_of sep a.
Proof.
  intros Hfree p q ->. apply (Hfree p (q ++ b)). by rewrite !append_assoc.
Qed.

Lemma free_of_app_r (sep a b : string) : free_of sep (a ++ b) → free_of sep b.
Proof.
  intros Hfree p q ->. apply (Hfree (a ++ p) q). by rewrite !append_assoc.
Qed.

(** Without an occurrence of the pattern nothing is replaced. *)
Lemma replace_first_free (pat rep s : string) :
  free_of pat s → replace_first pat rep s = s.
Proof.
  intros Hfree.
  destruct (replace_first_spec pat rep s) as [[_ ->]|(p & q & -> & _)]; [done|].
  by destruct (Hfree p q).
Qed.

Lemma prefix_app (sep x y : string) :
  (String.length sep ≤ String.length x)%nat →
  String.prefix sep (x ++ y) = String.prefix sep x.
Proof.
  revert x. induction sep as [|c sep IH]; intros x Hlen.
  - destruct x, y; reflexivity.
  - destruct x as [|d x]; cbn in Hlen; [lia|]. cbn.
    destruct (Ascii.ascii_dec c d); [|done]. apply IH. lia.
Qed.

Lemma literal_app (sep x y : string) :
  (String.length sep ≤ String.length x)%nat →
  literal sep (x ++ y) = literal sep x.
Proof. intros Hlen. unfold literal. by rewrite prefix_app. Qed.

(** A CR LF that begins inside [q] when a CR LF follows [q] begins and ends
    inside [q]. *)
Lemma literal_CRLF_straddle (q rest : string) :
  q ≠ "" →
  literal CRLF q = None →
  literal CRLF (q ++ CRLF ++ rest) = None.
Proof.
  intros Hq Hnone. destruct q as [|c [|d q]]; [done| |].
  - unfold literal. cbn.
    destruct (Ascii.ascii_dec CR c); [|done]. by vm_compute.
  - rewrite <- Hnone.
    change (String c (String d q) ++ CRLF ++ rest)
      with (String c (String d "") ++ (q ++ CRLF ++ rest)).
    rewrite literal_app by (cbn; lia).
    change (String c (String d q)) with (String c (String d "") ++ q).
    by rewrite literal_app by (cbn; lia).
Qed.

Lemma literal_CRLF_head (rest : string) :
  literal CRLF (CRLF ++ rest) = Some 2.
Proof. apply literal_Some. split; [done|by exists rest]. Qed.

(** Cutting [a], CR LF, [b] at every CR LF cuts [a] and cuts [b]. *)
Lemma split_string_CRLF_app (a b : string) :
  split_string CRLF (a ++ CRLF ++ b)
  = (split_string CRLF a ++ split_string CRLF b)%list.
Proof.
  rewrite !split_string_split_from by done.
  remember (String.length a) as n eqn:Hn.
  revert a Hn. induction (lt_wf n) as [n _ IH]; intros a ->.
  destruct (first_separator (literal CRLF) a)
    as [Hnone|(key & s & len & -> & Hs & Hkey)].
  - rewrite (split_from_none _ _ a) by done.
    rewrite (split_from_first _ _ a (CRLF ++ b) 1);
      [reflexivity| |apply literal_CRLF_head|done].
    intros p q Hpq Hq. apply literal_CRLF_straddle; [done|]. by apply (Hnone p).
  - pose proof Hs as [-> [rest ->]]%literal_Some.
    rewrite (split_from_first _ _ key (CRLF ++ rest) 1);
      [|done|apply literal_CRLF_head|done].
    rewrite append_assoc.
    rewrite (split_from_first _ _ key ((CRLF ++ rest) ++ CRLF ++ b) 1);
      [| |rewrite <- append_assoc; apply literal_CRLF_head|done].
    + cbn [string_drop String.append CRLF]. cbn [app]. f_equal.
      apply (IH (String.length rest)); [|done].
      rewrite !length_append. cbn. lia.
    + intros p q Hpq Hq. rewrite <- append_assoc.
      rewrite literal_app; [by apply (Hkey p)|].
      rewrite !length_append. cbn. destruct q; [done|cbn; lia].
Qed.

Lemma split_string_free (line : string) :
  free_of CRLF line → split_string CRLF line = [line].
Proof.
  intros Hfree. rewrite split_string_split_from by done.
  apply split_from_none. intros p q ->. apply literal_None.
  intros rest ->. by apply (Hfree p rest).
Qed.

Lemma split_string_concat (ls : list string) :
  ls ≠ [] → Forall (free_of CRLF) ls →
  split_string CRLF (String.concat CRLF ls) = ls.
Proof.
  induction ls as [|x [|y ls] IH]; intros Hne Hfree; [done| |].
  - apply Forall_cons in Hfree as [Hx _]. by apply split_string_free.
  - apply Forall_cons in Hfree as [Hx Hrest].
    change (String.concat CRLF (x :: y :: ls))
      with (x ++ CRLF ++ String.concat CRLF (y :: ls)).
    rewrite split_string_CRLF_app, split_string_free by done.
    by rewrite IH.
Qed.

(** X5: the lines are what the input gives when it is cut at every CR LF:
    no line holds a CR LF, and the lines joined by CR LF give the input
    back, with its first escaped pair (backslash, r, backslash, n) made a
    real CR LF; without an escaped pair they give the input itself. *)
Theorem lines_of_rejoin (data : string) :
  Forall (free_of CRLF) (lines_of data)
  ∧ String.concat CRLF (lines_of data) = replace_first escaped_CRLF CRLF data
  ∧ (free_of escaped_CRLF data → String.concat CRLF (lines_of data) = data).
Proof.
  destruct (split_string_pieces CRLF (replace_first escaped_CRLF CRLF data))
    as [Hjoin Hfree]; [done|].
  split; [done|]. split; [done|].
  intros Hesc. unfold lines_of in *. by rewrite Hjoin, replace_first_free.
Qed.

(** X6: cutting is the inverse of joining: for lines without CR LF whose
    joined text holds no escaped pair, [clean_data] works on exactly those
    lines. *)
Theorem lines_of_concat (ls : list string) :
  ls ≠ [] →
  Forall (free_of CRLF) ls →
  free_of escaped_CRLF (String.concat CRLF ls) →
  lines_of (String.concat CRLF ls) = ls.
Proof.
  intros Hne Hfree Hesc. unfold lines_of.
  rewrite replace_first_free by done. by apply split_string_concat.
Qed.

Lemma lines_of_concat_witness :
  lines_of (String.concat CRLF ["x 1"; ""; "y 2"]) = ["x 1"; ""; "y 2"].
Proof.
  apply (lines_of_concat ["x 1"; ""; "y 2"]).
  - discriminate.
  - repeat constructor; apply contains_false; reflexivity.
  - apply contains_false. reflexivity.
Defined.

(** X7: an input without CR LF and without an escaped pair is one line,
    however many LF it holds; when its last character is not a digit (as
    when it ends with an LF) or it ends with [ 0], the object returned is
    empty. *)
Theorem clean_data_without_CRLF (data : string) :
  free_of CRLF data →
  free_of escaped_CRLF data →
  lines_of data = [data] ∧ (dropped data → clean_data data = ∅).
Proof.
  intros Hfree Hesc.
  assert (lines_of data = [data]) as Hlines.
  { unfold lines_of. rewrite replace_first_free by done.
    by apply split_string_free. }
  split; [done|]. intros Hdrop%keep_false.
  unfold clean_data. rewrite Hlines. cbn. by rewrite Hdrop.
Qed.

Lemma clean_data_without_CRLF_witness :
  lines_of unix_report = [unix_report] ∧ clean_data unix_report = ∅.
Proof.
  destruct (clean_data_without_CRLF unix_report) as [Hlines Hempty];
    [apply contains_false; reflexivity..|].
  split; [exact Hlines|]. apply Hempty, keep_false. reflexivity.
Defined.

Lemma step_union (m o : gmap string value) (line : string) :
  step (m ∪ o) line = step m line ∪ o.
Proof.
  unfold step, store, set_property. destruct (keep line); [|done].
  destruct (String.eqb _ _); [done|]. apply insert_union_l.
Qed.

Lemma foldl_step_union (ls : list string) (o : gmap string value) :
  foldl step o ls = foldl step ∅ ls ∪ o.
Proof.
  induction ls as [|l ls IH] using rev_ind.
  - cbn. by rewrite (left_id_L ∅ (∪)).
  - rewrite !foldl_app. cbn. by rewrite IH, step_union.
Qed.

(** X8: two reports joined by a CR LF give the entries of both, those of
    the second report taking the place of those of the first with the same
    key (when the joined text holds no escaped pair). *)
Theorem clean_data_append (a b : string) :
  free_of escaped_CRLF (a ++ CRLF ++ b) →
  clean_data (a ++ CRLF ++ b) = clean_data b ∪ clean_data a.
Proof.
  intros Hesc.
  pose proof (free_of_app_l _ _ _ Hesc) as Ha.
  pose proof (free_of_app_r _ _ _ (free_of_app_r _ _ _ Hesc)) as Hb.
  unfold clean_data, lines_of. rewrite !clean_data_steps.
  rewrite !replace_first_free by done.
  rewrite split_string_CRLF_app, foldl_app.
  apply foldl_step_union.
Qed.

Lemma clean_data_append_witness :
  clean_data ("x 1" ++ CRLF ++ "x 2") = clean_data "x 2" ∪ clean_data "x 1".
Proof.
  apply (clean_data_append "x 1" "x 2"). apply contains_false. reflexivity.
Defined.

(** A piece that follows a separator begins with a digit. *)
Lemma Fields_head_digit (rest : string) (fs : list string) :
  Fields rest fs → starts_with_digit rest = true →
  ∃ first more, fs = first :: more ∧ starts_with_digit first = true.
Proof.
  intros Hfs Hdigit. destruct Hfs as [line _|key s rest' more _ Hsep _].
  - by exists line, [].
  - exists key, more. split; [done|].
    destruct key as [|c key]; [|done]. cbn in Hdigit.
    destruct Hsep as (sep & Hsep & -> & _). by destruct Hsep.
Qed.

(** X9: every value that [clean_data] stores is either [undefined], for a
    line without a separator, whose key is the whole line, or a string that
    begins with a decimal digit; and the line it comes from was kept. *)
Theorem clean_data_values (data key : string) (v : value) :
  clean_data data !! key = Some v →
  ∃ line, line ∈ lines_of data ∧ ¬ dropped line ∧
    ((v = JUndefined ∧ line = key) ∨
     (∃ text, v = JStr text ∧ starts_with_digit text = true)).
Proof.
  unfold clean_data. rewrite clean_data_steps, foldl_step_lookup.
  intros [(b & l & a & Hlines & Hw & -> & _)|[Hempty _]]; [|done].
  exists l. split; [rewrite Hlines; set_solver|].
  pose proof Hw as (Hkeep & _ & fs & Hfs & Hkey)%writes_iff.
  split; [done|]. rewrite (Fields_fields l fs Hfs).
  destruct Hfs as [line _|k s rest more _ Hsep Hrest].
  - left. by injection Hkey as <-.
  - right. destruct Hsep as (sep & _ & _ & Hdigit).
    destruct (Fields_head_digit rest more Hrest Hdigit)
      as (first & more' & -> & Hfirst).
    by exists first.
Qed.

Lemma clean_data_values_witness :
  ∃ line, line ∈ lines_of "x 1 2" ∧ ¬ dropped line ∧
    ((JStr "1" = JUndefined ∧ line = "x") ∨
     (∃ text, JStr "1" = JStr text ∧ starts_with_digit text = true)).
Proof.
  apply (clean_data_values "x 1 2" "x" (JStr "1")). by vm_compute.
Defined.

Lemma append_eq_longer (a a' x y : string) :
  a ++ x = a' ++ y →
  (String.length a' < String.length a)%nat →
  ∃ c, a = a' ++ c ∧ c ≠ "" ∧ y = c ++ x.
Proof.
  revert a. induction a' as [|d a' IH]; intros a Heq Hlen.
  - exists a. split; [done|]. split; [|done]. intros ->. cbn in Hlen. lia.
  - destruct a as [|e a]; cbn in Hlen; [lia|]. cbn in Heq.
    injection Heq as -> Heq.
    destruct (IH a Heq) as (c & -> & Hc & ->); [lia|]. by exists c.
Qed.

Lemma append_eq_same_length (a a' x y : string) :
  a ++ x = a' ++ y → String.length a = String.length a' → a = a' ∧ x = y.
Proof.
  revert a'. induction a as [|c a IH]; intros [|d a'] Heq Hlen;
    try done.
  cbn in Heq, Hlen. injection Heq as -> Heq.
  destruct (IH a' Heq) as [-> ->]; [lia|done].
Qed.

(** The escaped pair does not overlap itself: after a text without it, its
    first occurrence is the one that is appended. *)
Lemma first_occurrence_escaped (a b : string) :
  free_of escaped_CRLF a →
  first_occurrence escaped_CRLF a (a ++ escaped_CRLF ++ b).
Proof.
  intros Hfree a' b' Heq.
  destruct (decide (String.length a' < String.length a)%nat) as [Hlt|]; [|lia].
  exfalso.
  destruct (append_eq_longer a a' _ _ Heq Hlt) as (c & -> & Hc & Hrest).
  destruct c as [|c1 [|c2 [|c3 [|c4 c]]]]; [done|by cbn in Hrest..|].
  cbn in Hrest. injection Hrest as <- <- <- <- _.
  by apply (Hfree a' c).
Qed.

Lemma replace_first_escaped (a b : string) :
  free_of escaped_CRLF a →
  replace_first escaped_CRLF CRLF (a ++ escaped_CRLF ++ b) = a ++ CRLF ++ b.
Proof.
  intros Hfree.
  destruct (replace_first_spec escaped_CRLF CRLF (a ++ escaped_CRLF ++ b))
    as [[Hnone _]|(p & q & Heq & Hfirst & ->)]; [by destruct (Hnone a b)|].
  pose proof (first_occurrence_escaped a b Hfree p q Heq) as Hle1.
  pose proof (Hfirst a b eq_refl) as Hle2.
  destruct (append_eq_same_length _ _ _ _ Heq) as [-> Htail]; [lia|].
  by destruct (append_eq_same_length _ _ _ _ Htail) as [_ ->].
Qed.

(** X10: only the first escaped pair (backslash, r, backslash, n) of the
    input is taken as a line end: what comes before it is one line and all
    that comes after it, later escaped pairs included, is the next (for an
    input without a real CR LF). *)
Theorem lines_of_first_escaped (a b : string) :
  free_of escaped_CRLF a →
  free_of CRLF a →
  free_of CRLF b →
  lines_of (a ++ escaped_CRLF ++ b) = [a; b].
Proof.
  intros Hesc Ha Hb. unfold lines_of.
  rewrite replace_first_escaped by done.
  by rewrite split_string_CRLF_app, !split_string_free.
Qed.

Lemma lines_of_first_escaped_witness :
  lines_of ("x 1" ++ escaped_CRLF ++ "y 2\r\nz 3") = ["x 1"; "y 2\r\nz 3"].
Proof.
  apply (lines_of_first_escaped "x 1" "y 2\r\nz 3");
    apply contains_false; reflexivity.
Defined.

Lemma step_empty (o : gmap string value) (line : string) :
  step o line = ∅ ↔ o = ∅ ∧ ∀ key, ¬ writes line key.
Proof.
  unfold step, store, set_property, writes.
  destruct (keep line) eqn:Hkeep.
  - destruct (fields_nonempty line) as (k & more & Hfs). rewrite Hfs. cbn.
    destruct (String.eqb_spec k "__proto__") as [->|Hk].
    + split; [|by intros [-> _]]. intros ->. split; [done|].
      intros key (_ & Hproto & more' & [= <- _]). done.
    + split; [by intros ?%insert_non_empty|].
      intros [_ Hnot]. destruct (Hnot k). eauto.
  - split; [|by intros [-> _]]. intros ->. split; [done|]. by intros key [? _].
Qed.

(** X11: the object returned is empty exactly when no line stores
    anything: every line is dropped by the filter or has [__proto__] as its
    key. *)
Theorem clean_data_empty_iff (data : string) :
  clean_data data = ∅ ↔
  Forall (λ line, dropped line ∨ ∃ more, Fields line ("__proto__" :: more))
    (lines_of data).
Proof.
  unfold clean_data. rewrite clean_data_steps.
  assert (∀ line, (∀ key, ¬ writes line key) ↔
                  dropped line ∨ ∃ more, Fields line ("__proto__" :: more))
    as Hline.
  { intros line. rewrite <- keep_false. split.
    - intros Hnot. destruct (keep line) eqn:Hkeep; [|by left]. right.
      destruct (fields_nonempty line) as (k & more & Hfs).
      destruct (decide (k = "__proto__")) as [->|Hk].
      + exists more. by apply Fields_iff.
      + destruct (Hnot k). unfold writes. eauto.
    - intros [Hdrop|[more Hfs%Fields_iff]] key (Hkeep & Hproto & more' & Hfs');
        congruence. }
  induction (lines_of data) as [|l ls IH] using rev_ind.
  - split; [by constructor|done].
  - rewrite foldl_app, Forall_app, Forall_singleton. cbn.
    rewrite step_empty, IH, Hline. done.
Qed.

(** ** What [solve] reports *)

Lemma elem_of_check (msg : string) (v : value) (msg' : string) :
  CallRej (JStr msg) ∈ check v msg' ↔ msg = msg' ∧ truthy v = false.
Proof.
  unfold check. destruct (truthy v); cbn.
  - split; [intros Hin; by apply elem_of_nil in Hin|by intros [_ ?]].
  - rewrite list_elem_of_singleton. split; [by intros [= ->]|by intros [-> _]].
Qed.

Lemma elem_of_browser_check (msg : string) (w : bool) :
  CallRej (JStr msg) ∈ browser_check w ↔ msg = msg_browser ∧ w = true.
Proof.
  destruct w; cbn.
  - rewrite list_elem_of_singleton. split; [by intros [= ->]|by intros [-> _]].
  - split; [intros Hin; by apply elem_of_nil in Hin|by intros [_ ?]].
Qed.

(** When a message is handed to the reject callback. *)
Lemma elem_of_calls (Reformat : value → completion value) (w : bool)
    (model : value) (msg : string) :
  CallRej (JStr msg) ∈ calls (solve_executor Reformat w model) ↔
  (msg = msg_browser ∧ w = true) ∨
  (∃ data ext,
     Reformat model = Normal data ∧ get model "external" = Normal ext ∧
     ((msg = msg_external ∧ truthy ext = false) ∨
      (∃ v, get ext "binPath" = Normal v ∧ msg = msg_binPath
            ∧ truthy v = false) ∨
      (∃ v, get ext "args" = Normal v ∧ msg = msg_args ∧ truthy v = false) ∨
      (∃ v, get ext "tempName" = Normal v ∧ msg = msg_tempName
            ∧ truthy v = false))).
Proof.
  destruct (Reformat model) as [data|e] eqn:HR.
  2:{ rewrite (solve_executor_throws Reformat w model e HR). cbn [calls fst].
      rewrite elem_of_browser_check. split; [by left|].
      by intros [?|(? & ? & ? & _)]. }
  destruct (get model "external") as [ext|e] eqn:Hext.
  2:{ rewrite (solve_executor_unreadable Reformat w model data e HR Hext).
      cbn [calls fst]. rewrite elem_of_browser_check. split; [by left|].
      by intros [?|(? & ? & _ & ? & _)]. }
  destruct (nullish ext) eqn:Hnull.
  - rewrite (solve_executor_absent Reformat w model data ext HR Hext Hnull).
    cbn [calls fst].
    rewrite elem_of_app, elem_of_browser_check, list_elem_of_singleton.
    assert (truthy ext = false) as Text by (by destruct ext).
    assert (∀ name v, get ext name ≠ Normal v) as Hget by (by destruct ext).
    split.
    + intros [?|[= ->]]; [by left|]. right. exists data, ext. eauto.
    + intros [?|(data' & ext' & [= <-] & [= <-] & Hcase)]; [by left|].
      destruct Hcase as [[-> _]|[(v & Hv & _)|[(v & Hv & _)|(v & Hv & _)]]];
        [by right|by apply Hget in Hv..].
  - destruct (get_not_nullish ext "binPath" Hnull) as [binPath Hbin].
    destruct (get_not_nullish ext "args" Hnull) as [args Hargs].
    destruct (get_not_nullish ext "tempName" Hnull) as [tempName Htemp].
    rewrite (solve_executor_present Reformat w model data ext
               binPath args tempName) by done.
    cbn [calls fst]. rewrite !elem_of_app, elem_of_browser_check, !elem_of_check.
    split.
    + intros [?|[?|[[-> ?]|[[-> ?]|[-> ?]]]]]; [by left|right..];
        exists data, ext; eauto 10.
    + intros [?|(data' & ext' & [= <-] & [= <-] & Hcase)]; [by left|].
      right.
      destruct Hcase as [?|[(v & Hv & ? & ?)|[(v & Hv & ? & ?)|(v & Hv & ? & ?)]]];
        [by left|right..]; rewrite Hv in *; simplify_eq; eauto.
Qed.

(** C3, amended: the error of each of the five checks of [solve] is handed
    to the reject callback as a plain string, the message of that check,
    exactly when the check fails, and none of these strings is a value with
    a [stage] and a [detail]; an exception thrown by the emitter, or by the
    read of [external] from a model that is [undefined] or [null], rejects
    the promise (outside a browser) with the exception itself. *)
Theorem solve_reports_plain_strings
    (Reformat : value → completion value) (w : bool) (model : value) :
  (CallRej (JStr msg_browser) ∈ calls (solve_executor Reformat w model) ↔
     w = true) ∧
  (CallRej (JStr msg_external) ∈ calls (solve_executor Reformat w model) ↔
     ∃ data ext, Reformat model = Normal data
                 ∧ get model "external" = Normal ext ∧ truthy ext = false) ∧
  (CallRej (JStr msg_binPath) ∈ calls (solve_executor Reformat w model) ↔
     ∃ data ext v, Reformat model = Normal data
                   ∧ get model "external" = Normal ext
                   ∧ get ext "binPath" = Normal v ∧ truthy v = false) ∧
  (CallRej (JStr msg_args) ∈ calls (solve_executor Reformat w model) ↔
     ∃ data ext v, Reformat model = Normal data
                   ∧ get model "external" = Normal ext
                   ∧ get ext "args" = Normal v ∧ truthy v = false) ∧
  (CallRej (JStr msg_tempName) ∈ calls (solve_executor Reformat w model) ↔
     ∃ data ext v, Reformat model = Normal data
                   ∧ get model "external" = Normal ext
                   ∧ get ext "tempName" = Normal v ∧ truthy v = false) ∧
  Forall (λ msg, is_ExternalError (JStr msg) = false) messages ∧
  (∀ e, w = false → Reformat model = Throw e →
        solve Reformat w model = Rejected e) ∧
  (∀ data e, w = false → Reformat model = Normal data →
             get model "external" = Throw e →
             solve Reformat w model = Rejected e).
Proof.
  repeat split.
  - intros [[_ ?]|(data & ext & _ & _ & Hcase)]%elem_of_calls; [done|].
    by destruct Hcase as [[? _]|[(? & _ & ? & _)|[(? & _ & ? & _)|(? & _ & ? & _)]]].
  - intros ->. apply elem_of_calls. by left.
  - intros [[? _]|(data & ext & HR & Hext & Hcase)]%elem_of_calls; [done|].
    destruct Hcase as [[_ ?]|[(? & _ & ? & _)|[(? & _ & ? & _)|(? & _ & ? & _)]]];
      [by exists data, ext|done..].
  - intros (data & ext & HR & Hext & Text). apply elem_of_calls. right.
    exists data, ext. eauto.
  - intros [[? _]|(data & ext & HR & Hext & Hcase)]%elem_of_calls; [done|].
    destruct Hcase as [[? _]|[(v & ? & _ & ?)|[(? & _ & ? & _)|(? & _ & ? & _)]]];
      [done|by exists data, ext, v|done..].
  - intros (data & ext & v & HR & Hext & Hv & Tv). apply elem_of_calls. right.
    exists data, ext. eauto 10.
  - intros [[? _]|(data & ext & HR & Hext & Hcase)]%elem_of_calls; [done|].
    destruct Hcase as [[? _]|[(? & _ & ? & _)|[(v & ? & _ & ?)|(? & _ & ? & _)]]];
      [done..|by exists data, ext, v|done].
  - intros (data & ext & v & HR & Hext & Hv & Tv). apply elem_of_calls. right.
    exists data, ext. eauto 10.
  - intros [[? _]|(data & ext & HR & Hext & Hcase)]%elem_of_calls; [done|].
    destruct Hcase as [[? _]|[(? & _ & ? & _)|[(? & _ & ? & _)|(v & ? & _ & ?)]]];
      [done..|by exists data, ext, v].
  - intros (data & ext & v & HR & Hext & Hv & Tv). apply elem_of_calls. right.
    exists data, ext. eauto 10.
  - by repeat constructor.
  - intros e -> HR. unfold solve. rewrite new_Promise_first.
    by rewrite (solve_executor_throws Reformat false model e HR).
  - intros data e -> HR Hext. unfold solve. rewrite new_Promise_first.
    by rewrite (solve_executor_unreadable Reformat false model data e HR Hext).
Qed.

Lemma solve_reports_plain_strings_witness :
  CallRej (JStr msg_args) ∈ calls (solve_executor sample_Reformat false partial_model)
  ∧ is_ExternalError (JStr msg_args) = false
  ∧ solve failing_Reformat false partial_model
    = Rejected (JStr "Solver requires a model to operate on").
Proof.
  destruct (solve_reports_plain_strings sample_Reformat false partial_model)
    as (_ & _ & _ & Hargs & _ & Hnot & _).
  destruct (solve_reports_plain_strings failing_Reformat false partial_model)
    as (_ & _ & _ & _ & _ & _ & Hthrow & _).
  split; [|split].
  - apply Hargs.
    exists (JStr "max: 1 x;"),
      (JObj (<["binPath" := JStr "C:/lpsolve/lp_solve.exe"]> ∅)), JUndefined.
    repeat split; reflexivity.
  - reflexivity.
  - apply Hthrow; reflexivity.
Defined.

(** ** The lines and the entries of [clean_data] *)

Lemma first_pair_made_real_replace (data : string) :
  first_pair_made_real data (replace_first escaped_CRLF CRLF data).
Proof.
  destruct (replace_first_spec escaped_CRLF CRLF data)
    as [[Hfree ->]|(p & q & -> & Hfirst & ->)].
  - by left.
  - right. by exists p, q.
Qed.

Lemma first_pair_made_real_unique (data text : string) :
  first_pair_made_real data text →
  text = replace_first escaped_CRLF CRLF data.
Proof.
  intros [[Hfree ->]|(p & q & -> & Hfirst & ->)].
  - by rewrite replace_first_free.
  - destruct (replace_first_spec escaped_CRLF CRLF (p ++ escaped_CRLF ++ q))
      as [[Hnone _]|(p' & q' & Heq & Hfirst' & ->)]; [by destruct (Hnone p q)|].
    pose proof (Hfirst p' q' Heq) as Hle1.
    pose proof (Hfirst' p q eq_refl) as Hle2.
    destruct (append_eq_same_length _ _ _ _ Heq) as [-> Htail]; [lia|].
    by destruct (append_eq_same_length _ _ _ _ Htail) as [_ ->].
Qed.

Lemma pieces_between_CRLF_split (text : string) :
  pieces_between_CRLF text (split_string CRLF text).
Proof.
  destruct (split_string_pieces CRLF text) as [Hjoin Hfree]; [done|].
  split; [|done]. rewrite split_string_split_from by done.
  apply split_from_nonempty.
Qed.

Lemma pieces_between_CRLF_unique (text : string) (ls : list string) :
  pieces_between_CRLF text ls → ls = split_string CRLF text.
Proof. intros (Hne & Hfree & <-). by rewrite split_string_concat. Qed.

(** The lines are the pieces, between CR LF pairs, of the input with its
    first escaped pair made real, and nothing else is. *)
Lemma lines_of_iff (data : string) (ls : list string) :
  lines_of data = ls ↔
  ∃ text, first_pair_made_real data text ∧ pieces_between_CRLF text ls.
Proof.
  unfold lines_of. split.
  - intros <-. exists (replace_first escaped_CRLF CRLF data).
    split; [apply first_pair_made_real_replace|apply pieces_between_CRLF_split].
  - intros (text & ->%first_pair_made_real_unique & ->%pieces_between_CRLF_unique).
    done.
Qed.

(** C10, amended: take the input with its first escaped pair (backslash, r,
    backslash, n), if it has one, made a real CR LF, and let its lines be
    the pieces between CR LF pairs.  The object returned by [clean_data] has
    an entry under [key] with value [v] exactly when [key] is not
    [__proto__] and some line that neither ends with [ 0] nor lacks a final
    decimal digit begins with [key], where the line is cut at every run of
    spaces (optionally preceded by [:]) that a digit follows: [key] is the
    text before the first such run, [v] the text between the first run and
    the second (up to the end of the line when there is one run only, and
    [undefined] when there is none), and no later surviving line has the
    same key.  So a dropped line leaves no entry, and a later line
    overwrites an earlier one with the same key. *)
Theorem clean_data_entries (data key : string) (v : value) :
  clean_data data !! key = Some v ↔
  key ≠ "__proto__" ∧
  ∃ text before line after fs,
    first_pair_made_real data text ∧
    pieces_between_CRLF text (before ++ line :: after)%list ∧
    ¬ dropped line ∧
    Fields line fs ∧ fs !! 0 = Some key ∧ v = item fs 1 ∧
    Forall (λ later, dropped later
                     ∨ ∀ fs', Fields later fs' → fs' !! 0 ≠ Some key) after.
Proof.
  rewrite clean_data_lookup. split.
  - intros (Hproto & before & line & after & fs & Hlines & Hrest).
    apply lines_of_iff in Hlines as (text & Htext & Hpieces).
    split; [done|]. by exists text, before, line, after, fs.
  - intros (Hproto & text & before & line & after & fs & Htext & Hpieces & Hrest).
    split; [done|]. exists before, line, after, fs. split; [|done].
    apply lines_of_iff. by exists text.
Qed.

(** An escaped pair counts as a line end: the second line, which ends with
    [ 0], is dropped and the first is kept. *)
Example clean_data_escaped_pair :
  clean_data ("a 1" ++ escaped_CRLF ++ "b 0") = {[ "a" := JStr "1" ]}.
Proof. vm_compute. reflexivity. Qed.
